(** * standup-cli: the commit-log pipeline of [bin/standup.js]

    A shallow embedding of the parsing, grouping and rendering functions of
    [bin/standup.js], and the properties its specification states about them.

    JavaScript strings are sequences of UTF-16 code units: a string is a
    [list N], one number per code unit.  The two case mappings of
    [String.prototype] depend on the Unicode tables; the development takes
    them as parameters of a section, so that every general theorem holds for
    whatever mapping the engine implements, and closes concrete examples
    with the mapping restricted to ASCII text. *)

From Stdlib Require Import NArith String Ascii List Lia Permutation DecimalString.
From stdpp Require Import gmap list sets.
Import ListNotations.

Local Open Scope N_scope.

(** ** Strings *)

Abbreviation jsstring := (list N).

(** A source literal, one code unit per character. *)
Definition js (s : string) : jsstring :=
  map N_of_ascii (list_ascii_of_string s).
Arguments js _%_string.

Definition inRange (lo hi c : N) : bool := (lo <=? c) && (c <=? hi).

(** WhiteSpace and LineTerminator of ECMAScript: what [trim] removes and what
    [\s] matches. *)
Definition isWhiteSpace (c : N) : bool :=
  inRange 9 13 c || (c =? 32) || (c =? 160) || (c =? 5760)
  || inRange 8192 8202 c || (c =? 8232) || (c =? 8233) || (c =? 8239)
  || (c =? 8287) || (c =? 12288) || (c =? 65279).

(** LineTerminator: what [.] does not match (the regex has no [s] flag). *)
Definition isLineTerminator (c : N) : bool :=
  (c =? 10) || (c =? 13) || (c =? 8232) || (c =? 8233).

Definition isDot (c : N) : bool := negb (isLineTerminator c).

(** [[a-zA-Z]] *)
Definition isAlpha (c : N) : bool := inRange 65 90 c || inRange 97 122 c.

Definition LPAREN : N := 40.
Definition RPAREN : N := 41.
Definition BANG : N := 33.
Definition COLON : N := 58.
Definition PERIOD : N := 46.
Definition TAB : N := 9.
Definition LF : N := 10.
Definition CR : N := 13.
Definition SPACE : N := 32.
(** [\x1f], the unit separator. *)
Definition US : N := 31.

(** [[^)]] *)
Definition notRParen (c : N) : bool := negb (c =? RPAREN).

Fixpoint trimStart (s : jsstring) : jsstring :=
  match s with
  | c :: r => if isWhiteSpace c then trimStart r else s
  | [] => []
  end.

Definition trimEnd (s : jsstring) : jsstring := rev (trimStart (rev s)).

(** [s.trim()] *)
Definition trim (s : jsstring) : jsstring := trimEnd (trimStart s).

(** [s.replace(/\.$/, '')]: a period that ends the string is removed, once. *)
Definition stripTrailingPeriod (s : jsstring) : jsstring :=
  match rev s with
  | c :: r => if c =? PERIOD then rev r else s
  | [] => s
  end.

(** [s.startsWith(p)] *)
Fixpoint startsWith (p s : jsstring) : bool :=
  match p, s with
  | [], _ => true
  | a :: p', b :: s' => (a =? b) && startsWith p' s'
  | _ :: _, [] => false
  end.

(** [s.endsWith(p)] *)
Definition endsWith (p s : jsstring) : bool := startsWith (rev p) (rev s).

(** [s.split(sep)] for a separator of one code unit; the empty string gives
    one empty piece. *)
Fixpoint split (sep : N) (s : jsstring) : list jsstring :=
  match s with
  | [] => [[]]
  | c :: r =>
      if c =? sep then [] :: split sep r
      else match split sep r with
           | p :: ps => (c :: p) :: ps
           | [] => [[c]]
           end
  end.

(** [raw.split(/\r?\n/)]: a line feed separates, and takes a carriage return
    that stands right before it into the separator. *)
Fixpoint splitLines (s : jsstring) : list jsstring :=
  match s with
  | [] => [[]]
  | c :: r =>
      let keep := match splitLines r with
                  | p :: ps => (c :: p) :: ps
                  | [] => [[c]]
                  end in
      if c =? LF then [] :: splitLines r
      else if c =? CR then
        match r with
        | c' :: r' => if c' =? LF then [] :: splitLines r' else keep
        | [] => keep
        end
      else keep
  end.

(** [lines.join(sep)] *)
Fixpoint join (sep : jsstring) (parts : list jsstring) : jsstring :=
  match parts with
  | [] => []
  | [p] => p
  | p :: ps => p ++ sep ++ join sep ps
  end.

(** ** Exceptions *)

Inductive JSError : Type :=
  | TypeError
  | ChildProcessError.

(** A computation that returns or throws. *)
Inductive Exc (A : Type) : Type :=
  | Ret (a : A)
  | Throw (e : JSError).
Arguments Ret {A} a.
Arguments Throw {A} e.

Global Instance exc_ret : MRet Exc := fun A a => Ret a.
Global Instance exc_bind : MBind Exc := fun A B f m =>
  match m with
  | Ret a => f a
  | Throw e => Throw e
  end.

(** [try { body } catch { handler }] *)
Definition tryCatch {A : Type} (body : Exc A) (handler : A) : A :=
  match body with
  | Ret a => a
  | Throw _ => handler
  end.

(** ** Effects

    What a run does outside the process, the banner lines left out. *)

Inductive Event : Type :=
  | ConsoleError (msg : jsstring)
  | ProcessExit (code : nat)
  | ExecGit (absPath : jsstring)
  | Ask
  | PrintStandup (output : jsstring)
  | CopyToClipboard (output : jsstring)
  | Uncaught (e : JSError).

(** A computation with effects: the events it performed, in order, and how
    it ended. *)
Record Run (A : Type) : Type := { trace : list Event; result : Exc A }.
Arguments trace {A} r.
Arguments result {A} r.

Global Instance run_ret : MRet Run := fun A a => {| trace := []; result := Ret a |}.
Global Instance run_bind : MBind Run := fun A B f m =>
  match result m with
  | Ret a => {| trace := trace m ++ trace (f a); result := result (f a) |}
  | Throw e => {| trace := trace m; result := Throw e |}
  end.

Definition emit (e : Event) : Run unit := {| trace := [e]; result := Ret tt |}.

(** Pure code that may throw, inside a run. *)
Definition liftExc {A : Type} (m : Exc A) : Run A := {| trace := []; result := m |}.

(** [try { body } catch { handler }] around code with effects: what the
    body did before it threw has happened. *)
Definition tryCatchRun {A : Type} (body : Run A) (handler : A) : Run A :=
  {| trace := trace body; result := Ret (tryCatch (result body) handler) |}.

(** [for (const x of xs) body] in a run. *)
Fixpoint forOfRun {S A : Type} (body : S -> A -> Run S) (st : S) (xs : list A) : Run S :=
  match xs with
  | [] => mret st
  | x :: rest => st' ← body st x; forOfRun body st' rest
  end.

(** ** The regular expression of [parseCommitSubject]

    [/^([a-zA-Z]+)(\(([^)]+)\))?(!)?:\s*(.+)$/] as a backtracking matcher in
    continuation-passing style: every quantifier is greedy and gives way
    when the rest of the pattern fails, as in the engine. *)

Section Regex.
Context {R : Type}.

(** [p*] followed by [k], which receives what the star consumed. *)
Fixpoint star (p : N -> bool) (k : jsstring -> jsstring -> option R)
    (s : jsstring) : option R :=
  match s with
  | c :: r =>
      if p c then
        match star p (fun pre rest => k (c :: pre) rest) r with
        | Some x => Some x
        | None => k [] s
        end
      else k [] s
  | [] => k [] []
  end.

(** [p+] *)
Definition plus (p : N -> bool) (k : jsstring -> jsstring -> option R)
    (s : jsstring) : option R :=
  match s with
  | c :: r => if p c then star p (fun pre rest => k (c :: pre) rest) r else None
  | [] => None
  end.

(** One literal character. *)
Definition chr (a : N) (k : jsstring -> option R) (s : jsstring) : option R :=
  match s with
  | c :: r => if c =? a then k r else None
  | [] => None
  end.

(** [(g)?]: the group first, the empty match when the group or what
    follows it fails. *)
Definition optional {X : Type}
    (g : (X -> jsstring -> option R) -> jsstring -> option R)
    (k : option X -> jsstring -> option R) (s : jsstring) : option R :=
  match g (fun x => k (Some x)) s with
  | Some x => Some x
  | None => k None s
  end.

(** [$] without the [m] flag: the end of the input. *)
Definition eos (x : R) (s : jsstring) : option R :=
  match s with
  | [] => Some x
  | _ :: _ => None
  end.
End Regex.

(** The groups the code reads: [match[1]], [match[3]] and [match[5]]. *)
Record Groups : Type := { group1 : jsstring; group3 : option jsstring; group5 : jsstring }.

Definition subjectRegex (s : jsstring) : option Groups :=
  plus isAlpha (fun g1 =>
    optional (fun k => chr LPAREN (plus notRParen (fun g3 => chr RPAREN (k g3))))
      (fun g3 =>
        optional (fun k => chr BANG (k tt))
          (fun _ =>
            chr COLON
              (star isWhiteSpace (fun _ =>
                plus isDot (fun g5 =>
                  eos {| group1 := g1; group3 := g3; group5 := g5 |})))))) s.

Local Close Scope N_scope.

(** ** Plain objects used as maps

    [grouped] and [TYPE_LABELS] are object literals: a key that is not an own
    property is looked up in [Object.prototype]. *)

Definition objectPrototypeKeys : list jsstring :=
  [js "constructor"; js "hasOwnProperty"; js "isPrototypeOf";
   js "propertyIsEnumerable"; js "toLocaleString"; js "toString";
   js "valueOf"; js "__proto__"; js "__defineGetter__";
   js "__defineSetter__"; js "__lookupGetter__"; js "__lookupSetter__"].

(** What [o[k]] evaluates to. *)
Inductive Property (A : Type) : Type :=
  | Own (a : A)
  | Inherited
  | Undefined.
Arguments Own {A} a.
Arguments Inherited {A}.
Arguments Undefined {A}.

Definition getProperty {A : Type} (o : gmap jsstring A) (k : jsstring) : Property A :=
  match o !! k with
  | Some a => Own a
  | None => if bool_decide (k ∈ objectPrototypeKeys) then Inherited else Undefined
  end.

(** [for (const x of xs) body], the loop state threaded through. *)
Fixpoint forOf {S A : Type} (body : S -> A -> Exc S) (st : S) (xs : list A) : Exc S :=
  match xs with
  | [] => Ret st
  | x :: rest => st' ← body st x; forOf body st' rest
  end.

(** ** Constants *)

Definition TYPE_ORDER : list jsstring :=
  [js "feat"; js "fix"; js "refactor"; js "perf"; js "docs"; js "test";
   js "chore"; js "build"; js "ci"; js "style"; js "other"].

Definition TYPE_LABELS : gmap jsstring jsstring :=
  list_to_map
    [(js "feat", js "Features"); (js "fix", js "Fixes");
     (js "refactor", js "Refactors"); (js "perf", js "Performance");
     (js "docs", js "Docs"); (js "test", js "Tests");
     (js "chore", js "Chores"); (js "build", js "Build");
     (js "ci", js "CI"); (js "style", js "Style"); (js "other", js "Other")].

Definition validFormats : list jsstring := [js "plain"; js "slack"; js "markdown"].

(** The boundary marker of [--pretty=format:__COMMIT__%x1f%s]. *)
Definition COMMIT_MARK : jsstring := js "__COMMIT__" ++ [US].

(** A number in a template literal. *)
Definition numToString (n : nat) : jsstring :=
  js (DecimalString.NilZero.string_of_uint (Nat.to_uint n)).

(** [a || b] on strings: the empty string is falsy. *)
Definition orElse (a b : jsstring) : jsstring :=
  match a with
  | [] => b
  | _ :: _ => a
  end.

(** [a || b] where [a] may be [null] or [undefined]. *)
Definition orElseOpt (a : option jsstring) (b : option jsstring) : option jsstring :=
  match a with
  | Some (_ :: _) => a
  | _ => b
  end.

(** ** Parsing one subject *)

Record ParsedSubject : Type := { parsed_type : jsstring; parsed_message : jsstring }.

Record CommitRecord : Type :=
  { type : jsstring; message : jsstring; files_changed : nat }.

Section Pipeline.
(** [String.prototype.toUpperCase] and [toLowerCase]. *)
Variable toUpperCase : jsstring -> jsstring.
Variable toLowerCase : jsstring -> jsstring.

Definition capitalize (text : jsstring) : jsstring :=
  match text with
  | [] => text
  | c :: rest => toUpperCase [c] ++ rest
  end.

Definition parseCommitSubject (subject : jsstring) : ParsedSubject :=
  let trimmed := trim subject in
  match subjectRegex trimmed with
  | None =>
      {| parsed_type := js "other";
         parsed_message := capitalize (stripTrailingPeriod trimmed) |}
  | Some m =>
      let commitType := toLowerCase (group1 m) in
      let message := capitalize (stripTrailingPeriod (trim (group5 m))) in
      let message := match group3 m with
                     | Some scope => scope ++ js ": " ++ message
                     | None => message
                     end in
      {| parsed_type := commitType; parsed_message := message |}
  end.

(** *** Decoding the log *)

(** The state of the loop of [parseGitLogWithNumstat]. *)
Record Decoder : Type :=
  { commits : list CommitRecord; current : option CommitRecord }.

(** [if (current) commits.push(current)] *)
Definition pushCurrent (st : Decoder) : list CommitRecord :=
  match current st with
  | Some cmt => commits st ++ [cmt]
  | None => commits st
  end.

(** One iteration of the loop over the lines. *)
Definition decodeLine (st : Decoder) (line : jsstring) : Exc Decoder :=
  if startsWith COMMIT_MARK line then
    (* line.split('\x1f', 2)[1].trim() *)
    match take 2 (split US line) !! 1%nat with
    | None => Throw TypeError
    | Some piece =>
        let subject := trim piece in
        let parsed := parseCommitSubject subject in
        Ret {| commits := pushCurrent st;
               current := Some {| type := parsed_type parsed;
                                  message := parsed_message parsed;
                                  files_changed := 0 |} |}
    end
  else
    match trim line, current st with
    | [], _ | _, None => Ret st
    | _ :: _, Some cmt =>
        let parts := split TAB line in
        if (3 <=? length parts)%nat then
          Ret {| commits := commits st;
                 current := Some {| type := type cmt;
                                    message := message cmt;
                                    files_changed := files_changed cmt + 1 |} |}
        else Ret st
    end.

Definition parseGitLogWithNumstat (raw : jsstring) : Exc (list CommitRecord) :=
  st ← forOf decodeLine {| commits := []; current := None |} (splitLines raw);
  Ret (pushCurrent st).

(** *** Grouping *)

(** [grouped], after [for (const t of TYPE_ORDER) grouped[t] = []]. *)
Definition emptyGroups : gmap jsstring (list jsstring) :=
  foldl (fun grouped t => <[t := []]> grouped) ∅ TYPE_ORDER.

(** One iteration of the loop over the commits: [seen] and [grouped]. *)
Definition groupCommit (st : gset jsstring * gmap jsstring (list jsstring))
    (commit : CommitRecord) : Exc (gset jsstring * gmap jsstring (list jsstring)) :=
  let key := toLowerCase (message commit) in
  if bool_decide (key ∈ st.1) then Ret st
  else
    let seen := {[ key ]} ∪ st.1 in
    (* grouped[commit.type] ? commit.type : 'other' *)
    let t := match getProperty st.2 (type commit) with
             | Own _ | Inherited => type commit
             | Undefined => js "other"
             end in
    (* grouped[t].push(commit.message) *)
    match getProperty st.2 t with
    | Own items => Ret (seen, <[t := items ++ [message commit]]> st.2)
    | Inherited | Undefined => Throw TypeError
    end.

(** [TYPE_LABELS[t] || 'Other'], read for the members of [TYPE_ORDER]
    only, which are own keys of [TYPE_LABELS]. *)
Definition labelOf (t : jsstring) : jsstring :=
  match TYPE_LABELS !! t with
  | Some label => orElse label (js "Other")
  | None => js "Other"
  end.

(** One iteration of the loop that emits the lines. *)
Definition emitGroup (grouped : gmap jsstring (list jsstring))
    (lines : list jsstring) (t : jsstring) : Exc (list jsstring) :=
  match getProperty grouped t with
  | Own [] => Ret lines
  | Own items =>
      Ret (lines ++ (labelOf t ++ js ":") :: map (fun item => js "- " ++ item) items)
  | Inherited | Undefined => Throw TypeError
  end.

Definition summarizeCommits (commits : list CommitRecord) : Exc (list jsstring) :=
  match commits with
  | [] => Ret [js "No commits in the last 24 hours"]
  | _ :: _ =>
      st ← forOf groupCommit (∅, emptyGroups) commits;
      forOf (emitGroup st.2) [] TYPE_ORDER
  end.

(** *** Rendering *)

Record RepoSummary : Type :=
  { name : jsstring;
    path : jsstring;
    repo_commits : list CommitRecord;
    commit_count : nat;
    repo_files_changed : nat }.

(** One iteration of the loop over the repositories. *)
Definition repoBlock (repoLines : list jsstring) (repo : RepoSummary)
    : Exc (list jsstring) :=
  summary ← summarizeCommits (repo_commits repo);
  Ret (repoLines
       ++ [name repo ++ js " (" ++ numToString (commit_count repo)
           ++ js " commits, " ++ numToString (repo_files_changed repo)
           ++ js " files changed):"]
       ++ summary ++ [[]]).

(** [if (last === '') repoLines.pop()] *)
Definition popBlank (repoLines : list jsstring) : list jsstring :=
  match rev repoLines with
  | [] :: r => rev r
  | _ => repoLines
  end.

(** One line of the Slack rendering. *)
Definition slackLine (line : jsstring) : jsstring :=
  match line with
  | [] => []
  | _ :: _ =>
      if endsWith (js ":") line then js "*" ++ line ++ js "*"
      else if startsWith (js "- ") line then js "- " ++ drop 2 line
      else js "- " ++ line
  end.

(** A value that may be [null] or [undefined], when it is truthy: the empty
    string is falsy too. *)
Definition truthy (v : option jsstring) : option jsstring :=
  match v with
  | Some (c :: r) => Some (c :: r)
  | _ => None
  end.

Definition formatOutput (repoSummaries : list RepoSummary)
    (today blockers format : jsstring) (team : option jsstring) : Exc jsstring :=
  let repoLines := match repoSummaries with
                   | [] => [js "No repositories scanned"]
                   | _ :: _ => []
                   end in
  repoLines ← forOf repoBlock repoLines repoSummaries;
  let repoLines := popBlank repoLines in
  if bool_decide (format = js "slack") then
    let lines := match truthy team with
                 | Some t => [js "*Team:* " ++ t]
                 | None => []
                 end in
    let lines := lines ++ [js "*Yesterday:*"] in
    let lines := lines ++ map slackLine repoLines in
    let lines := lines ++ [js "*Today:* " ++ today] in
    let lines := lines ++ [js "*Blockers:* " ++ orElse blockers (js "None")] in
    Ret (join [LF] lines)
  else if bool_decide (format = js "markdown") then
    let lines := [js "### Daily Standup"; []] in
    let lines := match truthy team with
                 | Some t => lines ++ [js "**Team:**"; t; []]
                 | None => lines
                 end in
    let lines := lines ++ [js "**Yesterday:**"] in
    let lines := lines ++ repoLines in
    let lines := lines ++ [[]; js "**Today:**"; today; []; js "**Blockers:**";
                           orElse blockers (js "None")] in
    Ret (join [LF] lines)
  else
    let lines := match truthy team with
                 | Some t => [js "Team: " ++ t]
                 | None => []
                 end in
    let lines := lines ++ [js "Yesterday:"] in
    let lines := lines ++ repoLines in
    let lines := lines ++ [js "Today: " ++ today] in
    let lines := lines ++ [js "Blockers: " ++ orElse blockers (js "None")] in
    Ret (join [LF] lines).

(** *** Summarising one repository *)

(** [path.resolve] and [path.basename], total on strings. *)
Variable resolve : jsstring -> jsstring.
Variable basename : jsstring -> jsstring.
(** [process.cwd()] *)
Variable cwd : jsstring.
(** [execFileSync('git', ['-C', absPath, 'log', ...])]: the output of the
    tool, or the exception of a failed invocation. *)
Variable execGitLog : jsstring -> Exc jsstring.

Definition execFileSync (absPath : jsstring) : Run jsstring :=
  {| trace := [ExecGit absPath]; result := execGitLog absPath |}.

Definition getRepoSummary (repoPath : jsstring) : Run (option RepoSummary) :=
  let absPath := resolve repoPath in
  let repoName := orElse (basename absPath) absPath in
  tryCatchRun
    (out ← execFileSync absPath;
     let raw := trim out in
     commits ← liftExc (parseGitLogWithNumstat raw);
     mret (Some {| name := repoName;
                   path := absPath;
                   repo_commits := commits;
                   commit_count := length commits;
                   repo_files_changed :=
                     foldl (fun sum cmt => sum + files_changed cmt) 0 commits |}))
    None.

(** *** The run *)

(** One iteration of the loop of [collectRepoPaths]. *)
Definition collectRepo (st : gset jsstring * list jsstring) (repo : jsstring)
    : gset jsstring * list jsstring :=
  let abs := resolve repo in
  let key := toLowerCase abs in
  if bool_decide (key ∈ st.1) then st
  else ({[ key ]} ∪ st.1, st.2 ++ [abs]).

Definition collectRepoPaths (configRepos cliRepos : list jsstring) : list jsstring :=
  let source := match cliRepos, configRepos with
                | _ :: _, _ => cliRepos
                | [], _ :: _ => configRepos
                | [], [] => [cwd]
                end in
  (foldl collectRepo (∅, []) source).2.

(** What [parseArgs] and [loadConfig] hand to [main]. *)
Record Cli : Type :=
  { cli_format : option jsstring;
    cli_team : option jsstring;
    noCopy : bool;
    cli_repos : list jsstring }.

Record Config : Type :=
  { config_format : option jsstring;
    config_team : option jsstring;
    config_copy : option bool;
    config_repos : option (list jsstring) }.

(** One iteration of the scanning loop. *)
Definition scanRepo (repoSummaries : list RepoSummary) (repoPath : jsstring)
    : Run (list RepoSummary) :=
  summary ← getRepoSummary repoPath;
  match summary with
  | None => mret repoSummaries
  | Some summary => mret (repoSummaries ++ [summary])
  end.

(** The body of [main], from the parsed arguments and the loaded
    configuration on; [today] and [blockers] are the lines the user types.
    [process.exit] ends the run where it is called. *)
Definition mainBody (config : Config) (cli : Cli) (today blockers : jsstring)
    : Run unit :=
  let format := default (js "plain")
                  (orElseOpt (cli_format cli) (truthy (config_format config))) in
  if negb (bool_decide (format ∈ validFormats)) then
    _ ← emit (ConsoleError (js "Unknown format " ++ [34%N] ++ format ++ [34%N]
                            ++ js ". Choose: plain, slack, markdown"));
    emit (ProcessExit 1)
  else
    let team := orElseOpt (cli_team cli) (truthy (config_team config)) in
    let copyEnabled := negb (noCopy cli) && default true (config_copy config) in
    let repoPaths := collectRepoPaths (default [] (config_repos config)) (cli_repos cli) in
    repoSummaries ← forOfRun scanRepo [] repoPaths;
    _ ← emit Ask;
    let today := trim today in
    _ ← emit Ask;
    let blockers := trim blockers in
    output ← liftExc (formatOutput repoSummaries (orElse today (js "(not specified)"))
                        (orElse blockers (js "None")) format team);
    _ ← emit (PrintStandup output);
    if copyEnabled then emit (CopyToClipboard output) else mret tt.

(** [main().catch(...)]: an exception that escapes is reported and the
    process exits with status 1. *)
Definition main (config : Config) (cli : Cli) (today blockers : jsstring)
    : list Event :=
  let run := mainBody config cli today blockers in
  match result run with
  | Ret _ => trace run
  | Throw e => trace run ++ [Uncaught e; ProcessExit 1]
  end.

End Pipeline.

(** The case mappings on one ASCII code unit. *)
Definition asciiUpper (c : N) : N := if inRange 97 122 c then c - 32 else c.
Definition asciiLower (c : N) : N := if inRange 65 90 c then c + 32 else c.

(** The case mappings of the engine on ASCII text. *)
Definition upperAscii : jsstring → jsstring := map asciiUpper.
Definition lowerAscii : jsstring → jsstring := map asciiLower.

(** ** The grammar of a conventional subject, as the specification words it

    [type(scope)!: description]: the type is one or more letters, the scope
    is optional, parenthesized and free of [)], the breaking-change mark is
    optional, and the description runs from after the colon and its
    white space to the end of the line. *)

Definition scopeText (scope : option jsstring) : jsstring :=
  match scope with
  | Some sc => LPAREN :: sc ++ [RPAREN]
  | None => []
  end.

Definition conventional (s ty : jsstring) (scope : option jsstring)
    (desc : jsstring) : Prop :=
  ∃ bang ws,
    s = ty ++ scopeText scope ++ bang ++ COLON :: ws ++ desc
    ∧ ty ≠ [] ∧ forallb isAlpha ty = true
    ∧ (∀ sc, scope = Some sc → sc ≠ [] ∧ forallb notRParen sc = true)
    ∧ (bang = [] ∨ bang = [BANG])
    ∧ forallb isWhiteSpace ws = true
    ∧ desc ≠ [] ∧ forallb isDot desc = true.

(** What is put in front of the message: the scope as written, and [': ']. *)
Definition scopePrefix (scope : option jsstring) : jsstring :=
  match scope with
  | Some sc => sc ++ js ": "
  | None => []
  end.

(** ** The decoded log, as the specification words it

    One record per boundary line, in the order of the lines; the record of a
    boundary line counts the stat lines between it and the next boundary
    line, or the end of the input. *)

(** A line that starts with the marker and the unit separator. *)
Definition isBoundary (line : jsstring) : bool := startsWith COMMIT_MARK line.

(** A line that is not blank and has at least three tab-separated fields. *)
Definition isStatLine (line : jsstring) : bool :=
  match trim line with
  | [] => false
  | _ :: _ => (3 <=? length (split TAB line))%nat
  end.

(** The lines before the next boundary line. *)
Fixpoint untilBoundary (lines : list jsstring) : list jsstring :=
  match lines with
  | [] => []
  | line :: rest => if isBoundary line then [] else line :: untilBoundary rest
  end.

Definition statLines (lines : list jsstring) : nat :=
  length (List.filter isStatLine (untilBoundary lines)).

(** The text after the first unit separator of a line, up to the next one. *)
Definition subjectField (line : jsstring) : jsstring :=
  default [] (split US line !! 1%nat).

Section Decoded.
Variable toUpperCase toLowerCase : jsstring → jsstring.

(** The record of a boundary line that is followed by [n] stat lines. *)
Definition recordOf (line : jsstring) (n : nat) : CommitRecord :=
  let parsed := parseCommitSubject toUpperCase toLowerCase (trim (subjectField line)) in
  {| type := parsed_type parsed; message := parsed_message parsed;
     files_changed := n |}.

Fixpoint decoded (lines : list jsstring) : list CommitRecord :=
  match lines with
  | [] => []
  | line :: rest =>
      if isBoundary line then recordOf line (statLines rest) :: decoded rest
      else decoded rest
  end.
End Decoded.

(** ** The grouped lines, as the specification words them *)

(** The bucket of a type: its own when it is one of the eleven tags, [other]
    when it is not. *)
Definition bucketOf (t : jsstring) : jsstring :=
  if bool_decide (t ∈ TYPE_ORDER) then t else js "other".

(** A type that names a property every plain object inherits. *)
Definition inheritedType (cmt : CommitRecord) : bool :=
  bool_decide (type cmt ∈ objectPrototypeKeys).

(** The messages of the records of bucket [t], in the order of the records. *)
Definition messagesIn (t : jsstring) (kept : list CommitRecord) : list jsstring :=
  map message (filter (λ cmt, bucketOf (type cmt) = t) kept).

(** The header line of a group. *)
Definition headerOf (t : jsstring) : jsstring :=
  default (js "Other") (TYPE_LABELS !! t) ++ js ":".

(** The lines of one group: nothing when it is empty, else its header and
    one item line per message. *)
Definition groupBlock (kept : list CommitRecord) (t : jsstring) : list jsstring :=
  match messagesIn t kept with
  | [] => []
  | items => headerOf t :: map (λ item, js "- " ++ item) items
  end.

(** The groups in display order. *)
Definition groupLines (kept : list CommitRecord) : list jsstring :=
  concat (map (groupBlock kept) TYPE_ORDER).

(** The header lines of an output: its lines that are not item lines. *)
Definition headersOf (lines : list jsstring) : list jsstring :=
  List.filter (λ line, negb (startsWith (js "- ") line)) lines.

Section Dedup.
Variable toLowerCase : jsstring → jsstring.

(** The dedup key of a record. *)
Definition keyOf (cmt : CommitRecord) : jsstring := toLowerCase (message cmt).

(** The first record of every key, every later record of that key dropped,
    whatever its type. *)
Fixpoint dedupFirst (commits : list CommitRecord) : list CommitRecord :=
  match commits with
  | [] => []
  | cmt :: rest => cmt :: filter (λ later, keyOf later ≠ keyOf cmt) (dedupFirst rest)
  end.

(** The records the loop of [summarizeCommits] lets through when [seen]
    holds the keys met so far. *)
Fixpoint survivors (seen : gset jsstring) (commits : list CommitRecord)
    : list CommitRecord :=
  match commits with
  | [] => []
  | cmt :: rest =>
      if bool_decide (keyOf cmt ∈ seen) then survivors seen rest
      else cmt :: survivors ({[ keyOf cmt ]} ∪ seen) rest
  end.
End Dedup.

(** The header lines of the eleven groups, in display order. *)
Definition HEADERS : list jsstring :=
  [js "Features:"; js "Fixes:"; js "Refactors:"; js "Performance:"; js "Docs:";
   js "Tests:"; js "Chores:"; js "Build:"; js "CI:"; js "Style:"; js "Other:"].

(** The item lines of an output. *)
Definition itemsOf (lines : list jsstring) : list jsstring :=
  List.filter (startsWith (js "- ")) lines.

(** ** The Yesterday section, block by block *)

(** The first line of the block of a repository. *)
Definition repoHeader (repo : RepoSummary) : jsstring :=
  name repo ++ js " (" ++ numToString (commit_count repo) ++ js " commits, "
  ++ numToString (repo_files_changed repo) ++ js " files changed):".

(** Blocks of lines with one blank line between two of them. *)
Fixpoint separated (blocks : list (list jsstring)) : list jsstring :=
  match blocks with
  | [] => []
  | [block] => block
  | block :: rest => block ++ [] :: separated rest
  end.

Section Yesterday.
Variable toLowerCase : jsstring → jsstring.

(** The grouped lines of a repository, when grouping returns. *)
Definition summaryLines (repo : RepoSummary) : list jsstring :=
  match summarizeCommits toLowerCase (repo_commits repo) with
  | Ret lines => lines
  | Throw _ => []
  end.

Definition yesterdayLines (repoSummaries : list RepoSummary) : list jsstring :=
  match repoSummaries with
  | [] => [js "No repositories scanned"]
  | _ :: _ => separated (map (λ repo, repoHeader repo :: summaryLines repo) repoSummaries)
  end.
End Yesterday.

(** ** The summaries of a run *)

Section Scanned.
Variable toUpperCase toLowerCase resolve basename : jsstring → jsstring.
Variable execGitLog : jsstring → Exc jsstring.

(** The summaries of the paths that are not skipped, in the order of the
    paths. *)
Definition summariesOf (repoPaths : list jsstring) : list RepoSummary :=
  omap (λ repoPath,
          match result (getRepoSummary toUpperCase toLowerCase resolve basename
                          execGitLog repoPath) with
          | Ret summary => summary
          | Throw _ => None
          end) repoPaths.
End Scanned.

(** ** The collected paths *)

Section Collected.
Variable toLowerCase : jsstring → jsstring.

(** Of resolved paths, those whose lowercased form is not in [seen] and is
    not the lowercased form of an earlier one. *)
Fixpoint firstPaths (seen : gset jsstring) (paths : list jsstring) : list jsstring :=
  match paths with
  | [] => []
  | abs :: rest =>
      if bool_decide (toLowerCase abs ∈ seen) then firstPaths seen rest
      else abs :: firstPaths ({[ toLowerCase abs ]} ∪ seen) rest
  end.
End Collected.

(** The lines from the first boundary line on. *)
Fixpoint fromFirstBoundary (lines : list jsstring) : list jsstring :=
  match lines with
  | [] => []
  | line :: rest => if isBoundary line then lines else fromFirstBoundary rest
  end.

(** ** Lines and their endings *)

(** A line without the carriage return that ends it, if one does. *)
Definition chompCR (line : jsstring) : jsstring :=
  match rev line with
  | c :: r => if (c =? CR)%N then rev r else line
  | [] => line
  end.

(** Two lines that are equal up to one carriage return at the end. *)
Definition crEq (line line' : jsstring) : Prop :=
  line' = line ∨ line' = line ++ [CR] ∨ line = line' ++ [CR].

(** Lines that hold no line feed. *)
Definition lfFree (lines : list jsstring) : bool :=
  forallb (forallb (λ c, negb (c =? LF)%N)) lines.

(** ** The command line: [parseArgs] *)

(** What [parseArgs] ends in: the parsed arguments, or the help text and
    [process.exit(0)]. *)
Inductive ParsedArgs : Type :=
  | Parsed (cli : Cli)
  | HelpExit.

Section Args.
Variable toLowerCase : jsstring → jsstring.

(** The loop of [parseArgs] from the argument at hand on; a flag that takes
    a value takes the next argument when there is one and it is not empty,
    and the loop then steps over both. *)
Fixpoint parseArgsFrom (parsed : Cli) (argv : list jsstring) : ParsedArgs :=
  match argv with
  | [] => Parsed parsed
  | arg :: rest =>
      let withValue :=
        match rest with
        | (c :: v) :: rest' =>
            let value := c :: v in
            if bool_decide (arg = js "--format" ∨ arg = js "-f") then
              Some (parseArgsFrom
                      {| cli_format := Some (toLowerCase value);
                         cli_team := cli_team parsed;
                         noCopy := noCopy parsed;
                         cli_repos := cli_repos parsed |} rest')
            else if bool_decide (arg = js "--team" ∨ arg = js "-t") then
              Some (parseArgsFrom
                      {| cli_format := cli_format parsed;
                         cli_team := Some value;
                         noCopy := noCopy parsed;
                         cli_repos := cli_repos parsed |} rest')
            else if bool_decide (arg = js "--repo") then
              Some (parseArgsFrom
                      {| cli_format := cli_format parsed;
                         cli_team := cli_team parsed;
                         noCopy := noCopy parsed;
                         cli_repos := cli_repos parsed ++ [value] |} rest')
            else None
        | _ => None
        end in
      match withValue with
      | Some outcome => outcome
      | None =>
          if bool_decide (arg = js "--no-copy") then
            parseArgsFrom
              {| cli_format := cli_format parsed;
                 cli_team := cli_team parsed;
                 noCopy := true;
                 cli_repos := cli_repos parsed |} rest
          else if bool_decide (arg = js "--help" ∨ arg = js "-h") then HelpExit
          else parseArgsFrom parsed rest
      end
  end.

Definition parseArgs (argv : list jsstring) : ParsedArgs :=
  parseArgsFrom
    {| cli_format := None; cli_team := None; noCopy := false; cli_repos := [] |} argv.
End Args.

Section ArgsOrigin.
Variable toLowerCase : jsstring → jsstring.

(** Everything in the parsed arguments comes from the arguments given. *)
Definition fromArgs (argv : list jsstring) (cli : Cli) : Prop :=
  (noCopy cli = true → js "--no-copy" ∈ argv)
  ∧ (∀ format, cli_format cli = Some format →
       ∃ value, value ∈ argv ∧ value ≠ [] ∧ format = toLowerCase value)
  ∧ (∀ team, cli_team cli = Some team → team ∈ argv ∧ team ≠ [])
  ∧ (∀ repo, repo ∈ cli_repos cli → repo ∈ argv ∧ repo ≠ []).
End ArgsOrigin.

(** ** Loop invariants *)

(** The record under construction, [n] stat lines later. *)
Definition bump (n : nat) (cmt : CommitRecord) : CommitRecord :=
  {| type := type cmt; message := message cmt;
     files_changed := files_changed cmt + n |}.

(** [grouped] holds, under every tag, the messages of the records let through
    so far that fall in its bucket, and has no other own key. *)
Definition groupedAs (grouped : gmap jsstring (list jsstring))
    (kept : list CommitRecord) : Prop :=
  ∀ t, grouped !! t
       = if bool_decide (t ∈ TYPE_ORDER) then Some (messagesIn t kept) else None.

(** ** Proofs *)

(** A decidable fact about constants, by evaluation. *)
Ltac by_evaluation := apply (bool_decide_unpack _); vm_compute; exact I.

(** ** The matcher against the grammar *)

Section RegexFacts.
Context {R : Type}.
Implicit Types (p : N → bool) (k : jsstring → jsstring → option R).

Lemma star_sound p k s x :
  star p k s = Some x →
  ∃ pre rest, s = pre ++ rest ∧ forallb p pre = true ∧ k pre rest = Some x.
Proof.
  revert k. induction s as [|c r IH]; intros k; simpl.
  - intros Hk. by exists [], [].
  - destruct (p c) eqn:Hp.
    + destruct (star p _ r) as [y|] eqn:Hs.
      * intros [= ->]. apply IH in Hs as (pre & rest & -> & Hpre & Hk).
        exists (c :: pre), rest. simpl. by rewrite Hp, Hpre.
      * intros Hk. by exists [], (c :: r).
    + intros Hk. by exists [], (c :: r).
Qed.

Lemma star_complete p k pre rest :
  forallb p pre = true → is_Some (k pre rest) → is_Some (star p k (pre ++ rest)).
Proof.
  revert k. induction pre as [|c pre IH]; intros k; simpl.
  - intros _ Hk. destruct rest as [|c r]; simpl; [done|].
    destruct (p c); [|done]. by destruct (star p _ r).
  - intros [Hc Hpre]%andb_true_iff Hk. rewrite Hc.
    destruct (IH (λ pre rest, k (c :: pre) rest) Hpre Hk) as [y ->]. eauto.
Qed.

Lemma plus_sound p k s x :
  plus p k s = Some x →
  ∃ pre rest, s = pre ++ rest ∧ pre ≠ [] ∧ forallb p pre = true
              ∧ k pre rest = Some x.
Proof.
  destruct s as [|c r]; simpl; [done|].
  destruct (p c) eqn:Hp; [|done].
  intros (pre & rest & -> & Hpre & Hk)%star_sound.
  exists (c :: pre), rest. simpl. by rewrite Hp, Hpre.
Qed.

Lemma plus_complete p k pre rest :
  pre ≠ [] → forallb p pre = true → is_Some (k pre rest) →
  is_Some (plus p k (pre ++ rest)).
Proof.
  destruct pre as [|c pre]; [done|]. simpl.
  intros _ [-> Hpre]%andb_true_iff Hk.
  by apply (star_complete p (λ pre rest, k (c :: pre) rest)).
Qed.

Lemma chr_sound a (k : jsstring → option R) s x :
  chr a k s = Some x → ∃ r, s = a :: r ∧ k r = Some x.
Proof.
  destruct s as [|c r]; simpl; [done|].
  destruct (N.eqb_spec c a) as [->|]; [|done]. eauto.
Qed.

Lemma optional_group {X : Type}
    (g : (X → jsstring → option R) → jsstring → option R)
    (k : option X → jsstring → option R) s :
  is_Some (g (λ x, k (Some x)) s) → is_Some (optional g k s).
Proof. unfold optional. by intros [y ->]. Qed.

Lemma chr_here a (k : jsstring → option R) r : chr a k (a :: r) = k r.
Proof. simpl. by rewrite N.eqb_refl. Qed.
End RegexFacts.

(** A run of characters that satisfy [p], ended by one that does not, is
    read off a string in one way only. *)
Lemma span_unique (p : N → bool) pre pre' c c' (r r' : jsstring) :
  forallb p pre = true → forallb p pre' = true → p c = false → p c' = false →
  pre ++ c :: r = pre' ++ c' :: r' → pre = pre' ∧ c = c' ∧ r = r'.
Proof.
  revert pre'. induction pre as [|a pre IH]; intros [|a' pre']; simpl.
  - intros _ _ _ _ [= -> ->]. done.
  - intros _ [Ha _]%andb_true_iff Hc _ [= -> _]. congruence.
  - intros [Ha _]%andb_true_iff _ _ Hc [= -> _]. congruence.
  - intros [_ Hpre]%andb_true_iff [_ Hpre']%andb_true_iff Hc Hc' [= -> Heq].
    destruct (IH pre' Hpre Hpre' Hc Hc' Heq) as (-> & -> & ->). done.
Qed.

Lemma trimStart_whitespace ws s :
  forallb isWhiteSpace ws = true → trimStart (ws ++ s) = trimStart s.
Proof.
  induction ws as [|c ws IH]; simpl; [done|].
  intros [-> Hws]%andb_true_iff. auto.
Qed.

Lemma trim_whitespace ws s :
  forallb isWhiteSpace ws = true → trim (ws ++ s) = trim s.
Proof. intros Hws. unfold trim. by rewrite trimStart_whitespace. Qed.

Lemma subjectRegex_sound s m :
  subjectRegex s = Some m → conventional s (group1 m) (group3 m) (group5 m).
Proof.
  unfold subjectRegex.
  intros (ty & r1 & -> & Hty & Halpha & Hk)%plus_sound.
  assert (∀ g3 r, 
    optional (λ k, chr BANG (k ())) (λ _, chr COLON (star isWhiteSpace (λ _,
      plus isDot (λ g5, eos {| group1 := ty; group3 := g3; group5 := g5 |})))) r
    = Some m →
    ∃ bang ws, r = bang ++ COLON :: ws ++ group5 m ∧ (bang = [] ∨ bang = [BANG])
      ∧ forallb isWhiteSpace ws = true ∧ group5 m ≠ [] 
      ∧ forallb isDot (group5 m) = true ∧ group1 m = ty ∧ group3 m = g3) as Htail.
  { intros g3 r. unfold optional.
    assert (∀ r', chr COLON (star isWhiteSpace (λ _,
      plus isDot (λ g5, eos {| group1 := ty; group3 := g3; group5 := g5 |}))) r'
      = Some m → ∃ ws, r' = COLON :: ws ++ group5 m
        ∧ forallb isWhiteSpace ws = true ∧ group5 m ≠ [] 
        ∧ forallb isDot (group5 m) = true ∧ group1 m = ty ∧ group3 m = g3) as Hcolon.
    { intros r' (r2 & -> & (ws & r3 & -> & Hws & Hd)%star_sound)%chr_sound.
      apply plus_sound in Hd as (d & r4 & -> & Hne & Hdot & He).
      destruct r4; simpl in He; [|done]. injection He as <-. simpl.
      exists ws. by rewrite app_nil_r. }
    destruct (chr BANG _ r) as [y|] eqn:Hb.
    - intros [= ->]. apply chr_sound in Hb as (r' & -> & Hc).
      apply Hcolon in Hc as (ws & -> & Hrest). exists [BANG], ws.
      split; [done|]. split; [by right|done].
    - intros (ws & -> & Hrest)%Hcolon. exists [], ws.
      split; [done|]. split; [by left|done]. }
  unfold optional at 1 in Hk.
  destruct (chr LPAREN _ r1) as [y|] eqn:Hp.
  - injection Hk as ->. apply chr_sound in Hp as (r2 & -> & Hs).
    apply plus_sound in Hs as (sc & r3 & -> & Hsc & Hnp & Hc).
    apply chr_sound in Hc as (r4 & -> & Ht).
    apply Htail in Ht as (bang & ws & -> & Hbang & Hws & Hd & Hdot & -> & ->).
    exists bang, ws. simpl. rewrite <- !app_assoc. simpl.
    repeat split; try done; by simplify_eq.
  - apply Htail in Hk as (bang & ws & -> & Hbang & Hws & Hd & Hdot & -> & ->).
    exists bang, ws. simpl. by repeat split.
Qed.

Lemma subjectRegex_complete s ty scope desc :
  conventional s ty scope desc → is_Some (subjectRegex s).
Proof.
  intros (bang & ws & -> & Hty & Halpha & Hscope & Hbang & Hws & Hd & Hdot).
  unfold subjectRegex. apply plus_complete; [done..|].
  assert (∀ g3, is_Some (
    optional (λ k, chr BANG (k ())) (λ _, chr COLON (star isWhiteSpace (λ _,
      plus isDot (λ g5, eos {| group1 := ty; group3 := g3; group5 := g5 |}))))
      (bang ++ COLON :: ws ++ desc))) as Htail.
  { intros g3.
    assert (is_Some (chr COLON (star isWhiteSpace (λ _,
      plus isDot (λ g5, eos {| group1 := ty; group3 := g3; group5 := g5 |})))
      (COLON :: ws ++ desc))) as Hcolon.
    { rewrite chr_here. apply star_complete; [done|].
      rewrite <- (app_nil_r desc). by apply plus_complete. }
    unfold optional. destruct Hbang as [-> | ->]; simpl app.
    - by destruct (chr BANG _ _).
    - rewrite chr_here. by destruct Hcolon as [y ->]. }
  destruct scope as [sc|]; simpl scopeText.
  - destruct (Hscope sc eq_refl) as [Hsc Hnp].
    apply optional_group. simpl app. rewrite chr_here, <- app_assoc.
    apply plus_complete; [done..|]. simpl app. rewrite chr_here. apply Htail.
  - simpl app. unfold optional at 1. destruct (chr LPAREN _ _); [done|]. apply Htail.
Qed.

(** The captures of a subject are determined by the subject; the description
    up to the white space in front of it, which [trim] removes. *)
Lemma conventional_unique s ty ty' scope scope' desc desc' :
  conventional s ty scope desc → conventional s ty' scope' desc' →
  ty = ty' ∧ scope = scope' ∧ trim desc = trim desc'.
Proof.
  intros (bang & ws & -> & _ & Halpha & Hscope & Hbang & Hws & _ & _).
  intros (bang' & ws' & Heq & _ & Halpha' & Hscope' & Hbang' & Hws' & _ & _).
  assert (∀ sc b rest, (b = [] ∨ b = [BANG]) →
    ∃ c r, scopeText sc ++ b ++ COLON :: rest = c :: r ∧ isAlpha c = false) as Hhead.
  { intros [sc|] b rest [-> | ->]; simpl; eauto. }
  destruct (Hhead scope bang (ws ++ desc) Hbang) as (c & r & Hr & Hc).
  destruct (Hhead scope' bang' (ws' ++ desc') Hbang') as (c' & r' & Hr' & Hc').
  rewrite Hr, Hr' in Heq.
  destruct (span_unique isAlpha _ _ _ _ _ _ Halpha Halpha' Hc Hc' Heq)
    as (-> & -> & ->).
  split; [done|]. rewrite <- Hr' in Hr. clear Hhead Heq Hr' Hc Hc' c' r'.
  assert (scope = scope' ∧ bang ++ COLON :: ws ++ desc = bang' ++ COLON :: ws' ++ desc')
    as [-> Htail].
  { destruct scope as [sc|], scope' as [sc'|]; simpl in Hr.
    - injection Hr as Hr. rewrite <- !app_assoc in Hr. simpl in Hr.
      destruct (Hscope sc eq_refl) as [_ Hsc].
      destruct (Hscope' sc' eq_refl) as [_ Hsc'].
      assert (notRParen RPAREN = false) as Hp by done.
      by destruct (span_unique notRParen _ _ _ _ _ _ Hsc Hsc' Hp Hp Hr)
        as (-> & _ & ->).
    - by destruct Hbang' as [-> | ->].
    - by destruct Hbang as [-> | ->].
    - done. }
  split; [done|].
  assert (ws ++ desc = ws' ++ desc') as Hrest.
  { destruct Hbang as [-> | ->], Hbang' as [-> | ->]; simpl in Htail;
      by simplify_eq. }
  by rewrite <- (trim_whitespace ws desc), <- (trim_whitespace ws' desc'), Hrest.
Qed.

(** ** The commit subject parser *)

(** C1 (as amended).  For every subject: when the trimmed subject reads
    [type(scope)!: description], the parser returns the lowercased type and,
    as message, the trimmed description with one trailing period removed and
    its first character capitalized, with the scope exactly as written and
    [': '] in front of it when there is a scope; when the trimmed subject
    does not read so, it returns the type [other] and the trimmed subject
    with one trailing period removed and its first character capitalized. *)
Theorem parseCommitSubject_spec (toUpperCase toLowerCase : jsstring → jsstring)
    (subject : jsstring) :
  (∀ ty scope desc,
     conventional (trim subject) ty scope desc →
     parseCommitSubject toUpperCase toLowerCase subject
     = {| parsed_type := toLowerCase ty;
          parsed_message :=
            scopePrefix scope
            ++ capitalize toUpperCase (stripTrailingPeriod (trim desc)) |})
  ∧ ((∀ ty scope desc, ¬ conventional (trim subject) ty scope desc) →
     parseCommitSubject toUpperCase toLowerCase subject
     = {| parsed_type := js "other";
          parsed_message :=
            capitalize toUpperCase (stripTrailingPeriod (trim subject)) |}).
Proof.
  split.
  - intros ty scope desc Hconv.
    destruct (subjectRegex_complete _ _ _ _ Hconv) as [m Hm].
    destruct (conventional_unique _ _ _ _ _ _ _ Hconv (subjectRegex_sound _ _ Hm))
      as (-> & -> & ->).
    unfold parseCommitSubject. rewrite Hm.
    destruct (group3 m) as [sc|]; simpl; [|done].
    f_equal. by rewrite <- app_assoc.
  - intros Hnone. unfold parseCommitSubject.
    destruct (subjectRegex (trim subject)) as [m|] eqn:Hm; [|done].
    by apply subjectRegex_sound, Hnone in Hm.
Qed.

Lemma conventional_scoped_example :
  conventional (trim (js " fix(Auth)!:  handle null token. "))
    (js "fix") (Some (js "Auth")) (js "handle null token.").
Proof.
  exists [BANG], (js "  ").
  split_and!; try by vm_compute.
  - by intros sc [= <-].
  - by right.
Qed.

Lemma conventional_none_example ty scope desc :
  ¬ conventional (trim (js "weird subject line.")) ty scope desc.
Proof. by intros [m Hm]%subjectRegex_complete. Qed.

Lemma parseCommitSubject_spec_witness :
  parseCommitSubject upperAscii lowerAscii (js " fix(Auth)!:  handle null token. ")
  = {| parsed_type := js "fix"; parsed_message := js "Auth: Handle null token" |}
  ∧ parseCommitSubject upperAscii lowerAscii (js "weird subject line.")
    = {| parsed_type := js "other"; parsed_message := js "Weird subject line" |}.
Proof.
  split.
  - exact (proj1 (parseCommitSubject_spec upperAscii lowerAscii _) _ _ _ conventional_scoped_example).
  - exact (proj2 (parseCommitSubject_spec upperAscii lowerAscii _) conventional_none_example).
Defined.

(** C1 as stated puts the scope in lower case; the parser keeps it as
    written. *)
Lemma parseCommitSubject_scope_as_written :
  conventional (trim (js "fix(Auth): x")) (js "fix") (Some (js "Auth")) (js "x")
  ∧ parseCommitSubject upperAscii lowerAscii (js "fix(Auth): x")
    = {| parsed_type := js "fix"; parsed_message := js "Auth: X" |}
  ∧ parseCommitSubject upperAscii lowerAscii (js "fix(Auth): x")
    ≠ {| parsed_type := lowerAscii (js "fix");
         parsed_message :=
           lowerAscii (js "Auth") ++ js ": "
           ++ capitalize upperAscii (stripTrailingPeriod (trim (js "x"))) |}.
Proof.
  split; [|split].
  - exists [], [SPACE]. split_and!; try by vm_compute.
    + by intros sc [= <-].
    + by left.
  - by vm_compute.
  - by vm_compute.
Qed.

(** ** The log stream decoder *)

Lemma forOf_cons {S A : Type} (body : S → A → Exc S) st x rest :
  forOf body st (x :: rest) = body st x ≫= λ st', forOf body st' rest.
Proof. done. Qed.

Lemma bind_Ret {A B : Type} (a : A) (f : A → Exc B) : Ret a ≫= f = f a.
Proof. done. Qed.

Lemma startsWith_app p s : startsWith p s = true → ∃ r, s = p ++ r.
Proof.
  revert s. induction p as [|a p IH]; intros s; simpl; [by eauto|].
  destruct s as [|b s]; [done|].
  intros [->%N.eqb_eq [r ->]%IH]%andb_true_iff. eauto.
Qed.

Lemma split_nonempty sep s : ∃ piece pieces, split sep s = piece :: pieces.
Proof.
  induction s as [|c s (piece & pieces & IH)]; simpl; [by eauto|].
  destruct (c =? sep)%N; [by eauto|]. rewrite IH. eauto.
Qed.

(** On a boundary line [line.split('\x1f', 2)[1]] is defined. *)
Lemma boundary_subject line :
  isBoundary line = true →
  take 2 (split US line) !! 1%nat = Some (subjectField line).
Proof.
  intros [r ->]%startsWith_app. unfold subjectField.
  destruct (split_nonempty US r) as (piece & pieces & Hr).
  change (COMMIT_MARK ++ r) with (js "__COMMIT__" ++ US :: r).
  vm_compute js. simpl. by rewrite Hr.
Qed.

Section DecoderFacts.
Variable toUpperCase toLowerCase : jsstring → jsstring.
Local Abbreviation decodeLine' := (decodeLine toUpperCase toLowerCase).
Local Abbreviation decoded' := (decoded toUpperCase toLowerCase).
Local Abbreviation recordOf' := (recordOf toUpperCase toLowerCase).

Lemma decodeLine_boundary st line :
  isBoundary line = true →
  decodeLine' st line
  = Ret {| commits := pushCurrent st; current := Some (recordOf' line 0) |}.
Proof.
  intros Hb. unfold decodeLine. fold (isBoundary line).
  by rewrite Hb, (boundary_subject line Hb).
Qed.

Lemma decodeLine_stat st line :
  isBoundary line = false →
  decodeLine' st line
  = Ret (match current st with
         | Some cmt =>
             if isStatLine line
             then {| commits := commits st; current := Some (bump 1 cmt) |}
             else st
         | None => st
         end).
Proof.
  intros Hb. unfold decodeLine, isStatLine. fold (isBoundary line). rewrite Hb.
  destruct (trim line), (current st); try done.
  by destruct (3 <=? length (split TAB line))%nat.
Qed.

(** The invariant of the loop: what has been pushed, the open record with
    the stat lines still to come before the next boundary, and the records
    of the boundaries still to come. *)
Lemma decode_loop lines st :
  ∃ st', forOf decodeLine' st lines = Ret st'
         ∧ pushCurrent st'
           = commits st
             ++ option_list (bump (statLines lines) <$> current st)
             ++ decoded' lines.
Proof.
  revert st. induction lines as [|line rest IH]; intros st.
  - exists st. split; [done|]. unfold pushCurrent, statLines. simpl.
    destruct (current st) as [[t m n]|]; simpl; [|by rewrite app_nil_r].
    unfold bump. simpl. by rewrite Nat.add_0_r.
  - rewrite forOf_cons. unfold statLines. simpl untilBoundary. simpl decoded.
    destruct (isBoundary line) eqn:Hb.
    + rewrite (decodeLine_boundary st line Hb), bind_Ret.
      destruct (IH {| commits := pushCurrent st;
                      current := Some (recordOf' line 0) |}) as (st' & Hrun & Hst').
      exists st'. split; [exact Hrun|]. rewrite Hst'. simpl.
      unfold pushCurrent.
      destruct (current st) as [[t m n]|]; simpl;
        unfold bump; simpl; rewrite ?Nat.add_0_r, <- ?app_assoc; done.
    + rewrite (decodeLine_stat st line Hb), bind_Ret. simpl List.filter.
      destruct (current st) as [cmt|] eqn:Hc.
      2:{ destruct (IH st) as (st' & Hrun & Hst'). exists st'.
          split; [done|]. by rewrite Hst', Hc. }
      destruct (isStatLine line).
      * destruct (IH {| commits := commits st; current := Some (bump 1 cmt) |})
          as (st' & Hrun & Hst').
        exists st'. split; [done|]. rewrite Hst'. simpl. unfold bump. simpl.
        unfold statLines. do 3 f_equal. lia.
      * destruct (IH st) as (st' & Hrun & Hst'). exists st'.
        split; [done|]. by rewrite Hst', Hc.
Qed.

Lemma decoded_length lines :
  length (decoded' lines) = length (List.filter isBoundary lines).
Proof.
  induction lines as [|line rest IH]; simpl; [done|].
  destruct (isBoundary line); simpl; by rewrite IH.
Qed.
End DecoderFacts.

(** The decoder returns the records of the boundary lines. *)
Lemma parseGitLogWithNumstat_decoded (toUpperCase toLowerCase : jsstring → jsstring) raw :
  parseGitLogWithNumstat toUpperCase toLowerCase raw
  = Ret (decoded toUpperCase toLowerCase (splitLines raw)).
Proof.
  unfold parseGitLogWithNumstat.
  destruct (decode_loop toUpperCase toLowerCase (splitLines raw)
              {| commits := []; current := None |}) as (st' & -> & Hst').
  simpl in *. by rewrite Hst'.
Qed.



(** A log of three commits, as [git log --numstat] prints it: the stat lines
    follow a blank line; a line of fewer than three fields does not count. *)
Example parseGitLogWithNumstat_counts :
  parseGitLogWithNumstat upperAscii lowerAscii
    (join [LF]
       [ COMMIT_MARK ++ js "feat(cli): add --repo flag";
         [];
         js "12" ++ [TAB] ++ js "3" ++ [TAB] ++ js "bin/standup.js";
         js "-" ++ [TAB] ++ js "-" ++ [TAB] ++ js "docs/demo.gif";
         COMMIT_MARK ++ js "Merge notes";
         COMMIT_MARK ++ js "docs: update readme.";
         [];
         js "4" ++ [TAB] ++ js "README.md";
         js "4" ++ [TAB] ++ js "0" ++ [TAB] ++ js "README.md" ++ [CR] ])
  = Ret [ {| type := js "feat"; message := js "cli: Add --repo flag"; files_changed := 2 |};
          {| type := js "other"; message := js "Merge notes"; files_changed := 0 |};
          {| type := js "docs"; message := js "Update readme"; files_changed := 1 |} ].
Proof. by vm_compute. Qed.

(** ** The types of the decoded records *)

(** The records are the records of the boundary lines, one for one. *)
Lemma decoded_lookup (toUpperCase toLowerCase : jsstring → jsstring) lines i cmt :
  decoded toUpperCase toLowerCase lines !! i = Some cmt →
  ∃ line n, List.filter isBoundary lines !! i = Some line
            ∧ cmt = recordOf toUpperCase toLowerCase line n.
Proof.
  revert i. induction lines as [|line rest IH]; intros i; simpl; [done|].
  destruct (isBoundary line) eqn:Hb; [|by apply IH].
  destruct i as [|i]; simpl; [|by apply IH].
  intros [= <-]. by exists line, (statLines rest).
Qed.

Lemma filter_boundary_lookup lines i line :
  List.filter isBoundary lines !! i = Some line →
  line ∈ lines ∧ isBoundary line = true.
Proof.
  intros Hi%list_elem_of_lookup_2%list_elem_of_In%filter_In.
  destruct Hi as [Hin Hb]. by apply list_elem_of_In in Hin.
Qed.

(** C3 (as amended).  The record at every position of the decoder's result
    comes from the boundary line at that position among the boundary lines
    of the input, and has the type and the message the parser gives for the
    subject of that line: the type is [other] when that subject does not
    read as a conventional subject, and the lowercased type keyword of that
    subject, a word of one or more letters, when it does: whether or not the
    keyword is one of the ten recognized tags. *)
Theorem decoded_type (toUpperCase toLowerCase : jsstring → jsstring)
    (raw : jsstring) (records : list CommitRecord) (i : nat) (cmt : CommitRecord) :
  parseGitLogWithNumstat toUpperCase toLowerCase raw = Ret records →
  records !! i = Some cmt →
  ∃ line,
    List.filter isBoundary (splitLines raw) !! i = Some line
    ∧ line ∈ splitLines raw ∧ isBoundary line = true
    ∧ type cmt
      = parsed_type (parseCommitSubject toUpperCase toLowerCase
                       (trim (subjectField line)))
    ∧ message cmt
      = parsed_message (parseCommitSubject toUpperCase toLowerCase
                          (trim (subjectField line)))
    ∧ ((type cmt = js "other"
        ∧ ∀ ty scope desc, ¬ conventional (trim (trim (subjectField line))) ty scope desc)
       ∨ (∃ ty scope desc,
            conventional (trim (trim (subjectField line))) ty scope desc
            ∧ ty ≠ [] ∧ forallb isAlpha ty = true
            ∧ type cmt = toLowerCase ty)).
Proof.
  rewrite parseGitLogWithNumstat_decoded. intros [= <-] Hi.
  apply decoded_lookup in Hi as (line & n & Hi & ->).
  destruct (filter_boundary_lookup _ _ _ Hi) as [Hl Hb].
  exists line. split_and!; [done..|].
  unfold recordOf, parseCommitSubject. simpl.
  destruct (subjectRegex _) as [m|] eqn:Hm.
  - right. exists (group1 m), (group3 m), (group5 m).
    pose proof (subjectRegex_sound _ _ Hm) as Hconv.
    split; [done|]. by destruct Hconv as (? & ? & _ & ? & ? & _).
  - left. split; [done|]. intros ty scope desc Hconv.
    apply subjectRegex_complete in Hconv as [m' Hm']. congruence.
Qed.

Lemma decoded_type_witness :
  ∃ line,
    List.filter isBoundary
      (splitLines (join [LF] [COMMIT_MARK ++ js "feat: add login";
                              COMMIT_MARK ++ js "wip: tidy up"])) !! 1%nat
    = Some line
    ∧ line ∈ splitLines (join [LF] [COMMIT_MARK ++ js "feat: add login";
                                    COMMIT_MARK ++ js "wip: tidy up"])
    ∧ isBoundary line = true
    ∧ js "wip"
      = parsed_type (parseCommitSubject upperAscii lowerAscii (trim (subjectField line)))
    ∧ js "Tidy up"
      = parsed_message (parseCommitSubject upperAscii lowerAscii
                          (trim (subjectField line)))
    ∧ ((js "wip" = js "other"
        ∧ ∀ ty scope desc, ¬ conventional (trim (trim (subjectField line))) ty scope desc)
       ∨ (∃ ty scope desc,
            conventional (trim (trim (subjectField line))) ty scope desc
            ∧ ty ≠ [] ∧ forallb isAlpha ty = true
            ∧ js "wip" = lowerAscii ty)).
Proof.
  apply (decoded_type upperAscii lowerAscii
           (join [LF] [COMMIT_MARK ++ js "feat: add login";
                       COMMIT_MARK ++ js "wip: tidy up"])
           [ {| type := js "feat"; message := js "Add login"; files_changed := 0 |};
             {| type := js "wip"; message := js "Tidy up"; files_changed := 0 |} ]
           1%nat
           {| type := js "wip"; message := js "Tidy up"; files_changed := 0 |}).
  - reflexivity.
  - reflexivity.
Defined.

(** C3 as stated fails on a type keyword outside the tag set: the record
    keeps the keyword. *)
Lemma decoded_type_outside_tags :
  parseGitLogWithNumstat upperAscii lowerAscii (COMMIT_MARK ++ js "wip: tidy up")
  = Ret [ {| type := js "wip"; message := js "Tidy up"; files_changed := 0 |} ]
  ∧ js "wip" ∉ TYPE_ORDER
  ∧ js "wip" ≠ js "other".
Proof. split_and!; [by vm_compute|by_evaluation|done]. Qed.


(** ** Grouping and deduplication *)

(** No tag names an inherited property. *)
Lemma tag_not_inherited t : t ∈ TYPE_ORDER → t ∉ objectPrototypeKeys.
Proof.
  intros Ht Hp. revert Hp.
  assert (Forall (λ t, t ∉ objectPrototypeKeys) TYPE_ORDER) as Hall
    by by_evaluation.
  by apply (proj1 (Forall_forall _ _) Hall).
Qed.

Lemma bucketOf_tag t : bucketOf t ∈ TYPE_ORDER.
Proof.
  unfold bucketOf. case_bool_decide; [done|].
  by_evaluation.
Qed.

Lemma getProperty_grouped grouped kept t :
  groupedAs grouped kept →
  getProperty grouped t
  = if bool_decide (t ∈ TYPE_ORDER) then Own (messagesIn t kept)
    else if bool_decide (t ∈ objectPrototypeKeys) then Inherited else Undefined.
Proof. intros Hg. unfold getProperty. rewrite Hg. by case_bool_decide. Qed.

Lemma emptyGroups_groupedAs : groupedAs emptyGroups [].
Proof.
  intros t. unfold emptyGroups, messagesIn. simpl.
  case_bool_decide as Ht.
  - repeat (apply elem_of_cons in Ht as [-> | Ht]; [by vm_compute|]).
    by apply elem_of_nil in Ht.
  - rewrite !lookup_insert_ne; [apply lookup_empty|..];
      intros <-; apply Ht; by_evaluation.
Qed.

Lemma messagesIn_snoc t kept cmt :
  messagesIn t (kept ++ [cmt])
  = messagesIn t kept ++ (if decide (bucketOf (type cmt) = t) then [message cmt] else []).
Proof.
  unfold messagesIn. rewrite filter_app, map_app. f_equal.
  rewrite filter_cons, filter_nil. by case_decide.
Qed.

Lemma groupedAs_push grouped kept cmt :
  groupedAs grouped kept →
  groupedAs (<[bucketOf (type cmt) := messagesIn (bucketOf (type cmt)) kept ++ [message cmt]]>
               grouped) (kept ++ [cmt]).
Proof.
  intros Hg t. rewrite messagesIn_snoc.
  destruct (decide (bucketOf (type cmt) = t)) as [<- | Hne].
  - rewrite lookup_insert_eq. by rewrite bool_decide_eq_true_2 by apply bucketOf_tag.
  - rewrite lookup_insert_ne by done. rewrite Hg, app_nil_r. done.
Qed.

Section GroupingFacts.
Variable toLowerCase : jsstring → jsstring.
Local Abbreviation groupCommit' := (groupCommit toLowerCase).
Local Abbreviation survivors' := (survivors toLowerCase).
Local Abbreviation dedupFirst' := (dedupFirst toLowerCase).
Local Abbreviation keyOf' := (keyOf toLowerCase).

Lemma groupCommit_seen st cmt :
  keyOf' cmt ∈ st.1 → groupCommit' st cmt = Ret st.
Proof. intros Hs. unfold groupCommit. fold (keyOf' cmt). by rewrite bool_decide_eq_true_2. Qed.

Lemma groupCommit_new seen grouped kept cmt :
  keyOf' cmt ∉ seen → groupedAs grouped kept →
  groupCommit' (seen, grouped) cmt
  = if inheritedType cmt then Throw TypeError
    else Ret ({[ keyOf' cmt ]} ∪ seen,
              <[bucketOf (type cmt) := messagesIn (bucketOf (type cmt)) kept ++ [message cmt]]>
                grouped).
Proof.
  intros Hs Hg. unfold groupCommit. fold (keyOf' cmt). simpl.
  rewrite bool_decide_eq_false_2 by done.
  rewrite (getProperty_grouped _ _ (type cmt) Hg). unfold inheritedType, bucketOf.
  destruct (decide (type cmt ∈ TYPE_ORDER)) as [Ht|Ht].
  - rewrite (bool_decide_eq_true_2 _ Ht).
    rewrite (bool_decide_eq_false_2 _ (tag_not_inherited _ Ht)).
    by rewrite (getProperty_grouped _ _ _ Hg), (bool_decide_eq_true_2 _ Ht).
  - rewrite (bool_decide_eq_false_2 _ Ht).
    destruct (decide (type cmt ∈ objectPrototypeKeys)) as [Hp|Hp].
    + rewrite (bool_decide_eq_true_2 _ Hp).
      rewrite (getProperty_grouped _ _ _ Hg).
      by rewrite (bool_decide_eq_false_2 _ Ht), (bool_decide_eq_true_2 _ Hp).
    + rewrite (bool_decide_eq_false_2 _ Hp).
      by rewrite (getProperty_grouped _ _ _ Hg).
Qed.

(** The loop over the commits: it throws when a record it lets through has
    an inherited property name as type, and else files every such record
    under its bucket. *)
Lemma group_loop commits seen grouped kept :
  groupedAs grouped kept →
  match forOf groupCommit' (seen, grouped) commits with
  | Ret st =>
      existsb inheritedType (survivors' seen commits) = false
      ∧ groupedAs st.2 (kept ++ survivors' seen commits)
  | Throw e =>
      e = TypeError ∧ existsb inheritedType (survivors' seen commits) = true
  end.
Proof.
  revert seen grouped kept.
  induction commits as [|cmt rest IH]; intros seen grouped kept Hg.
  - simpl. by rewrite app_nil_r.
  - rewrite forOf_cons. simpl survivors. fold (keyOf' cmt).
    case_bool_decide as Hs.
    + rewrite (groupCommit_seen (seen, grouped) cmt Hs), bind_Ret. by apply IH.
    + rewrite (groupCommit_new seen grouped kept cmt Hs Hg). simpl existsb.
      destruct (inheritedType cmt); [done|]. rewrite bind_Ret. simpl orb.
      replace (kept ++ cmt :: survivors' ({[keyOf' cmt]} ∪ seen) rest)
        with ((kept ++ [cmt]) ++ survivors' ({[keyOf' cmt]} ∪ seen) rest)
        by by rewrite <- app_assoc.
      by apply IH, groupedAs_push.
Qed.

Lemma dedupFirst_filter (P : jsstring → Prop) `{!∀ k, Decision (P k)} commits :
  filter (λ cmt, P (keyOf' cmt)) (dedupFirst' commits)
  = dedupFirst' (filter (λ cmt, P (keyOf' cmt)) commits).
Proof.
  induction commits as [|cmt rest IH]; [done|]. simpl dedupFirst.
  rewrite !filter_cons. destruct (decide (P (keyOf' cmt))) as [Hp|Hp].
  - simpl dedupFirst. f_equal. rewrite <- IH, !list_filter_filter.
    apply list_filter_iff. naive_solver.
  - rewrite <- IH. apply list_filter_filter_l.
    intros later Hl Heq. apply Hp. by rewrite <- Heq.
Qed.

Lemma survivors_filter seen commits :
  survivors' seen commits = dedupFirst' (filter (λ cmt, keyOf' cmt ∉ seen) commits).
Proof.
  revert seen. induction commits as [|cmt rest IH]; intros seen; [done|].
  simpl survivors. fold (keyOf' cmt). rewrite filter_cons.
  case_bool_decide as Hs.
  - rewrite decide_False by auto. apply IH.
  - rewrite decide_True by done. simpl dedupFirst. f_equal.
    pose proof (dedupFirst_filter (λ k, k ≠ keyOf' cmt)) as Hd. cbv beta in Hd.
    rewrite IH, Hd, list_filter_filter.
    f_equal. apply list_filter_iff. set_solver.
Qed.

(** The loop lets through the first record of every key. *)
Lemma survivors_dedupFirst commits : survivors' ∅ commits = dedupFirst' commits.
Proof.
  rewrite survivors_filter. f_equal.
  induction commits as [|cmt rest IH]; [done|].
  rewrite filter_cons_True by set_solver. by rewrite IH.
Qed.
End GroupingFacts.

Lemma labelOf_header t : t ∈ TYPE_ORDER → labelOf t ++ js ":" = headerOf t.
Proof.
  intros Ht.
  repeat (apply elem_of_cons in Ht as [-> | Ht]; [by vm_compute|]).
  by apply elem_of_nil in Ht.
Qed.

Lemma emitGroup_grouped grouped kept lines t :
  groupedAs grouped kept → t ∈ TYPE_ORDER →
  emitGroup grouped lines t = Ret (lines ++ groupBlock kept t).
Proof.
  intros Hg Ht. unfold emitGroup, groupBlock.
  rewrite (getProperty_grouped _ _ _ Hg), (bool_decide_eq_true_2 _ Ht).
  destruct (messagesIn t kept); [by rewrite app_nil_r|].
  by rewrite (labelOf_header _ Ht).
Qed.

(** The loop that emits the lines. *)
Lemma emit_loop grouped kept ts lines :
  groupedAs grouped kept → (∀ t, t ∈ ts → t ∈ TYPE_ORDER) →
  forOf (emitGroup grouped) lines ts
  = Ret (lines ++ concat (map (groupBlock kept) ts)).
Proof.
  intros Hg. revert lines. induction ts as [|t ts IH]; intros lines Hts.
  - simpl. by rewrite app_nil_r.
  - rewrite forOf_cons, (emitGroup_grouped _ _ _ _ Hg) by (apply Hts; left).
    rewrite bind_Ret, IH by (intros t' Ht'; apply Hts; by right).
    simpl. by rewrite <- app_assoc.
Qed.

(** What [summarizeCommits] does on every input: the fixed line for no
    commits; an exception when the first record of some key has an inherited
    property name as type; else the groups, in display order, of the first
    record of every key. *)
Lemma summarizeCommits_run (toLowerCase : jsstring → jsstring) commits :
  summarizeCommits toLowerCase commits
  = match commits with
    | [] => Ret [js "No commits in the last 24 hours"]
    | _ :: _ =>
        if existsb inheritedType (dedupFirst toLowerCase commits)
        then Throw TypeError
        else Ret (groupLines (dedupFirst toLowerCase commits))
    end.
Proof.
  destruct commits as [|cmt rest]; [done|]. unfold summarizeCommits.
  pose proof (group_loop toLowerCase (cmt :: rest) ∅ emptyGroups []
                emptyGroups_groupedAs) as Hloop.
  rewrite survivors_dedupFirst in Hloop.
  destruct (forOf _ _ (cmt :: rest)) as [st|e].
  - destruct Hloop as [-> Hg]. rewrite bind_Ret.
    by apply (emit_loop _ _ TYPE_ORDER [] Hg).
  - by destruct Hloop as [-> ->].
Qed.


Section DedupFacts.
Variable toLowerCase : jsstring → jsstring.
Local Abbreviation dedupFirst' := (dedupFirst toLowerCase).
Local Abbreviation keyOf' := (keyOf toLowerCase).

Lemma dedupFirst_subset commits cmt : cmt ∈ dedupFirst' commits → cmt ∈ commits.
Proof.
  revert cmt. induction commits as [|first rest IH]; intros cmt; [done|].
  simpl. rewrite !elem_of_cons, list_elem_of_filter. naive_solver.
Qed.

(** A record whose key an earlier record has does not count. *)
Lemma dedupFirst_drop_later pre later post :
  (∃ first, first ∈ pre ∧ keyOf' first = keyOf' later) →
  dedupFirst' (pre ++ later :: post) = dedupFirst' (pre ++ post).
Proof.
  induction pre as [|cmt pre IH]; intros (first & Hin & Hkey).
  - by apply elem_of_nil in Hin.
  - simpl. f_equal. destruct (decide (keyOf' cmt = keyOf' later)) as [Heq|Hne].
    + pose proof (dedupFirst_filter toLowerCase (λ k, k ≠ keyOf' cmt)) as Hd.
      cbv beta in Hd. rewrite !Hd, !filter_app. f_equal.
      by rewrite filter_cons_False by auto.
    + f_equal. apply IH. exists first. split; [|done].
      apply elem_of_cons in Hin as [-> | Hin]; [by rewrite Hkey in Hne|done].
Qed.

(** The records kept are the ones no earlier record shares its key with. *)
Lemma dedupFirst_first commits cmt :
  cmt ∈ dedupFirst' commits
  ↔ ∃ i, commits !! i = Some cmt
         ∧ ∀ j earlier, (j < i)%nat → commits !! j = Some earlier →
                        keyOf' earlier ≠ keyOf' cmt.
Proof.
  revert cmt. induction commits as [|first rest IH]; intros cmt.
  - split; [by intros ?%elem_of_nil|]. by intros (i & ? & _).
  - simpl. rewrite elem_of_cons, list_elem_of_filter, IH. split.
    + intros [-> | (Hne & i & Hi & Hfirst)].
      * exists 0%nat. split; [done|]. lia.
      * exists (S i). split; [done|].
        intros [|j] earlier Hj; simpl; [by intros [= <-]|].
        apply Hfirst. lia.
    + intros ([|i] & Hi & Hfirst); simpl in Hi.
      * left. congruence.
      * right. split.
        -- intros Heq. apply (Hfirst 0%nat first); [lia|done|done].
        -- exists i. split; [done|]. intros j earlier Hj Hl.
           apply (Hfirst (S j) earlier); [lia|done].
Qed.
End DedupFacts.

Lemma groupLines_single cmt :
  groupLines [cmt] = [headerOf (bucketOf (type cmt)); js "- " ++ message cmt].
Proof.
  unfold groupLines, groupBlock, messagesIn.
  pose proof (bucketOf_tag (type cmt)) as Ht.
  simpl map. rewrite !filter_cons, !filter_nil.
  repeat (apply elem_of_cons in Ht as [-> | Ht]; [by vm_compute|]).
  by apply elem_of_nil in Ht.
Qed.

(** C4.  For every sequence of records, a record whose lowercased message an
    earlier record has is dropped, whatever its type: taking it out of the
    input changes nothing; the output is built from the first record of
    every key; and of two records whose messages differ only in letter case
    only the first appears. *)
Theorem summarizeCommits_dedup (toLowerCase : jsstring → jsstring) :
  (∀ pre later post,
     (∃ first, first ∈ pre ∧ toLowerCase (message first) = toLowerCase (message later)) →
     summarizeCommits toLowerCase (pre ++ later :: post)
     = summarizeCommits toLowerCase (pre ++ post))
  ∧ (∀ commits lines,
       commits ≠ [] → summarizeCommits toLowerCase commits = Ret lines →
       lines = groupLines (dedupFirst toLowerCase commits))
  ∧ (∀ commits cmt,
       cmt ∈ dedupFirst toLowerCase commits
       ↔ ∃ i, commits !! i = Some cmt
              ∧ ∀ j earlier, (j < i)%nat → commits !! j = Some earlier →
                  toLowerCase (message earlier) ≠ toLowerCase (message cmt))
  ∧ (∀ first later,
       toLowerCase (message first) = toLowerCase (message later) →
       type first ∉ objectPrototypeKeys →
       summarizeCommits toLowerCase [first; later]
       = Ret [headerOf (bucketOf (type first)); js "- " ++ message first]).
Proof.
  split_and!.
  - intros pre later post Hfirst. rewrite !summarizeCommits_run.
    rewrite (dedupFirst_drop_later toLowerCase pre later post Hfirst).
    destruct Hfirst as (first & Hin & _).
    destruct pre as [|cmt pre]; [by apply elem_of_nil in Hin|done].
  - intros commits lines Hne. rewrite summarizeCommits_run.
    destruct commits as [|cmt rest]; [done|].
    destruct (existsb _ _); [done|]. by intros [= <-].
  - apply dedupFirst_first.
  - intros first later Hkey Hsafe. rewrite summarizeCommits_run.
    simpl dedupFirst. unfold keyOf.
    rewrite filter_cons_False, filter_nil by auto.
    simpl existsb. unfold inheritedType.
    rewrite bool_decide_eq_false_2 by done. simpl.
    by rewrite groupLines_single.
Qed.

Lemma summarizeCommits_dedup_witness :
  summarizeCommits lowerAscii
    [ {| type := js "feat"; message := js "Add login"; files_changed := 2 |};
      {| type := js "fix"; message := js "add LOGIN"; files_changed := 1 |} ]
  = Ret [js "Features:"; js "- Add login"].
Proof.
  refine (proj2 (proj2 (proj2 (summarizeCommits_dedup lowerAscii))) _ _ _ _).
  - reflexivity.
  - by_evaluation.
Defined.

(** ** The order of the groups *)

Lemma HEADERS_order : map headerOf TYPE_ORDER = HEADERS.
Proof. by vm_compute. Qed.

Lemma headersOf_app l1 l2 : headersOf (l1 ++ l2) = headersOf l1 ++ headersOf l2.
Proof. apply List.filter_app. Qed.

Lemma headersOf_items items :
  headersOf (map (λ item, js "- " ++ item) items) = [].
Proof. induction items as [|item items IH]; [done|]. exact IH. Qed.

Lemma headersOf_groupBlock kept t :
  t ∈ TYPE_ORDER →
  headersOf (groupBlock kept t)
  = if decide (messagesIn t kept ≠ []) then [headerOf t] else [].
Proof.
  intros Ht. unfold groupBlock.
  destruct (messagesIn t kept) as [|item items] eqn:Hm; [done|].
  rewrite decide_True by done.
  change (headersOf (headerOf t :: ?l)) with
    (if negb (startsWith (js "- ") (headerOf t)) then headerOf t :: headersOf l
     else headersOf l).
  rewrite (headersOf_items (item :: items)).
  repeat (apply elem_of_cons in Ht as [-> | Ht]; [by vm_compute|]).
  by apply elem_of_nil in Ht.
Qed.

(** The headers of the groups of [ts]: those of the groups that are not
    empty, in the order of [ts]. *)
Lemma headersOf_groups kept ts :
  (∀ t, t ∈ ts → t ∈ TYPE_ORDER) →
  headersOf (concat (map (groupBlock kept) ts))
  = map headerOf (filter (λ t, messagesIn t kept ≠ []) ts).
Proof.
  induction ts as [|t ts IH]; intros Hts; [done|].
  simpl. rewrite headersOf_app, headersOf_groupBlock by (apply Hts; left).
  rewrite IH by (intros t' Ht'; apply Hts; by right).
  rewrite filter_cons. by case_decide.
Qed.

Lemma sublist_map {A B : Type} (f : A → B) (l1 l2 : list A) :
  l1 `sublist_of` l2 → map f l1 `sublist_of` map f l2.
Proof. induction 1; simpl; by constructor. Qed.

(** C8.  For every non-empty sequence of records and every permutation of
    it: when [summarizeCommits] returns, the header lines of its output are
    the headers of the groups that are not empty, in the fixed display
    order; it fails to return only when a record has an inherited property
    name as type. *)
Theorem summarizeCommits_header_order (toLowerCase : jsstring → jsstring)
    (commits commits' : list CommitRecord) :
  commits ≠ [] → commits ≡ₚ commits' →
  match summarizeCommits toLowerCase commits' with
  | Ret lines =>
      headersOf lines `sublist_of` HEADERS
      ∧ headersOf lines
        = map headerOf
            (filter (λ t, messagesIn t (dedupFirst toLowerCase commits') ≠ [])
                    TYPE_ORDER)
  | Throw _ => ∃ cmt, cmt ∈ commits ∧ type cmt ∈ objectPrototypeKeys
  end.
Proof.
  intros Hne Hperm. rewrite summarizeCommits_run.
  destruct commits' as [|cmt rest] eqn:Hc.
  { by apply Permutation_nil_r in Hperm. }
  rewrite <- Hc in *. clear Hc cmt rest.
  destruct (existsb _ _) eqn:Hex.
  - apply existsb_exists in Hex as (cmt & Hin & Hinh).
    exists cmt. split.
    + rewrite Hperm. by apply (dedupFirst_subset toLowerCase), list_elem_of_In.
    + by apply bool_decide_eq_true in Hinh.
  - unfold groupLines. rewrite headersOf_groups by done. split; [|done].
    rewrite <- HEADERS_order. apply sublist_map, sublist_filter.
Qed.

Lemma summarizeCommits_header_order_witness :
  let commits :=
    [ {| type := js "wip"; message := js "Tidy"; files_changed := 0 |};
      {| type := js "docs"; message := js "Update notes"; files_changed := 1 |};
      {| type := js "fix"; message := js "Handle null token"; files_changed := 3 |} ] in
  let lines :=
    [js "Fixes:"; js "- Handle null token"; js "Docs:"; js "- Update notes";
     js "Other:"; js "- Tidy"] in
  summarizeCommits lowerAscii (rev commits) = Ret lines
  ∧ headersOf lines `sublist_of` HEADERS.
Proof.
  intros commits lines. split; [reflexivity|].
  assert (commits ≠ []) as Hne by done.
  exact (proj1 (summarizeCommits_header_order lowerAscii commits (rev commits)
                  Hne (Permutation_rev commits))).
Defined.

(** ** Types outside the tag set *)

(** A type that is neither a tag nor an inherited property name is filed
    under [Other:]. *)
Lemma summarizeCommits_unknown_type (toLowerCase : jsstring → jsstring) cmt :
  type cmt ∉ TYPE_ORDER → type cmt ∉ objectPrototypeKeys →
  summarizeCommits toLowerCase [cmt] = Ret [js "Other:"; js "- " ++ message cmt].
Proof.
  intros Ht Hp. rewrite summarizeCommits_run. simpl. unfold inheritedType.
  rewrite bool_decide_eq_false_2 by done. simpl.
  rewrite groupLines_single. unfold bucketOf.
  by rewrite bool_decide_eq_false_2 by done.
Qed.

(** C9, at the input where the code departs from it.  The subject
    [constructor: add builder] decodes to a record of type [constructor];
    [grouped['constructor']] is the function every object inherits, which is
    truthy and has no [push]: [summarizeCommits] throws instead of filing the
    record under [Other:]. *)
Theorem summarizeCommits_constructor :
  parseGitLogWithNumstat upperAscii lowerAscii
    (COMMIT_MARK ++ js "constructor: add builder")
  = Ret [ {| type := js "constructor"; message := js "Add builder";
             files_changed := 0 |} ]
  ∧ summarizeCommits lowerAscii
      [ {| type := js "constructor"; message := js "Add builder";
           files_changed := 0 |} ]
    = Throw TypeError.
Proof. split; by vm_compute. Qed.

(** ** The worked example *)

(** C5.  The three subjects of the example, one boundary line each and no
    stat line, decode to the three records of the example, and the records
    group into its six lines. *)
Theorem decode_then_group_example :
  let raw := join [LF] (map (λ subject, COMMIT_MARK ++ subject)
                          [js "feat: add login"; js "fix(auth): handle null token.";
                           js "weird subject line"]) in
  let records :=
    [ {| type := js "feat"; message := js "Add login"; files_changed := 0 |};
      {| type := js "fix"; message := js "auth: Handle null token"; files_changed := 0 |};
      {| type := js "other"; message := js "Weird subject line"; files_changed := 0 |} ] in
  parseGitLogWithNumstat upperAscii lowerAscii raw = Ret records
  ∧ summarizeCommits lowerAscii records
    = Ret [js "Features:"; js "- Add login"; js "Fixes:";
           js "- auth: Handle null token"; js "Other:"; js "- Weird subject line"].
Proof. split; by vm_compute. Qed.

(** ** Summarising one repository *)

Lemma foldl_files_changed commits n :
  foldl (λ sum cmt, sum + files_changed cmt) n commits
  = n + sum_list (map files_changed commits).
Proof.
  revert n. induction commits as [|cmt rest IH]; intros n; simpl; [lia|].
  rewrite IH. lia.
Qed.

(** C7.  For every path [getRepoSummary] returns and does not raise: the
    sentinel when the invocation of the tool fails, and, when it succeeds, a
    summary of the decoded records whose [commit_count] is their number and
    whose [files_changed] is the sum of theirs. *)
Theorem getRepoSummary_spec (toUpperCase toLowerCase resolve basename : jsstring → jsstring)
    (execGitLog : jsstring → Exc jsstring) (repoPath : jsstring) :
  ∃ summary,
    result (getRepoSummary toUpperCase toLowerCase resolve basename execGitLog repoPath)
    = Ret summary
    ∧ (∀ e, execGitLog (resolve repoPath) = Throw e → summary = None)
    ∧ (∀ out, execGitLog (resolve repoPath) = Ret out →
         ∃ repo, summary = Some repo
           ∧ parseGitLogWithNumstat toUpperCase toLowerCase (trim out)
             = Ret (repo_commits repo)
           ∧ commit_count repo = length (repo_commits repo)
           ∧ repo_files_changed repo = sum_list (map files_changed (repo_commits repo))).
Proof.
  unfold getRepoSummary, tryCatchRun, execFileSync. simpl.
  eexists. split; [done|].
  unfold mbind, run_bind. simpl.
  destruct (execGitLog (resolve repoPath)) as [out|e]; simpl.
  - rewrite parseGitLogWithNumstat_decoded. simpl. split; [done|].
    intros out' [= <-]. eexists. split; [done|]. simpl.
    split_and!; [apply parseGitLogWithNumstat_decoded|done|].
    by rewrite foldl_files_changed.
  - split; [done|]. by intros out' [=].
Qed.

Lemma getRepoSummary_spec_witness :
  result (getRepoSummary upperAscii lowerAscii id id
            (λ _, Throw ChildProcessError) (js "/home/dev/notes"))
  = Ret None.
Proof.
  destruct (getRepoSummary_spec upperAscii lowerAscii id id
              (λ _, Throw ChildProcessError) (js "/home/dev/notes"))
    as (summary & Hrun & Hfail & _).
  rewrite Hrun. f_equal. apply (Hfail ChildProcessError). reflexivity.
Defined.

(** ** The format tag *)

Lemma run_bind_Ret {A B : Type} (m : Run A) (f : A → Run B) a :
  result m = Ret a →
  m ≫= f = {| trace := trace m ++ trace (f a); result := result (f a) |}.
Proof. unfold mbind, run_bind. by intros ->. Qed.

Section RunFacts.
Variable toUpperCase toLowerCase resolve basename : jsstring → jsstring.
Variable cwd : jsstring.
Variable execGitLog : jsstring → Exc jsstring.
Local Abbreviation getRepoSummary' :=
  (getRepoSummary toUpperCase toLowerCase resolve basename execGitLog).
Local Abbreviation scanRepo' :=
  (scanRepo toUpperCase toLowerCase resolve basename execGitLog).
Local Abbreviation mainBody' :=
  (mainBody toUpperCase toLowerCase resolve basename cwd execGitLog).
Local Abbreviation main' :=
  (main toUpperCase toLowerCase resolve basename cwd execGitLog).

Lemma getRepoSummary_trace repoPath :
  trace (getRepoSummary' repoPath) = [ExecGit (resolve repoPath)]
  ∧ ∃ summary, result (getRepoSummary' repoPath) = Ret summary.
Proof.
  unfold getRepoSummary, tryCatchRun, execFileSync, mbind, run_bind. simpl.
  split; [|by eauto].
  destruct (execGitLog (resolve repoPath)); simpl; [|done].
  by destruct (parseGitLogWithNumstat _ _ _).
Qed.

Lemma scanRepo_trace repoSummaries repoPath :
  trace (scanRepo' repoSummaries repoPath) = [ExecGit (resolve repoPath)]
  ∧ ∃ repoSummaries', result (scanRepo' repoSummaries repoPath) = Ret repoSummaries'.
Proof.
  unfold scanRepo.
  destruct (getRepoSummary_trace repoPath) as (Ht & summary & Hr).
  rewrite (run_bind_Ret _ _ _ Hr), Ht.
  destruct summary; simpl; eauto.
Qed.

(** The scanning loop invokes the tool once per path, in order, and
    returns. *)
Lemma scan_loop repoPaths repoSummaries :
  trace (forOfRun scanRepo' repoSummaries repoPaths)
  = map (λ repoPath, ExecGit (resolve repoPath)) repoPaths
  ∧ ∃ repoSummaries',
      result (forOfRun scanRepo' repoSummaries repoPaths) = Ret repoSummaries'.
Proof.
  revert repoSummaries.
  induction repoPaths as [|repoPath rest IH]; intros repoSummaries.
  - simpl. eauto.
  - simpl forOfRun.
    destruct (scanRepo_trace repoSummaries repoPath) as (Ht & next & Hr).
    destruct (IH next) as (Ht' & final & Hr').
    rewrite (run_bind_Ret _ _ _ Hr), Ht. simpl. rewrite Ht', Hr'. eauto.
Qed.

(** A run with a recognized tag scans every collected path before it asks
    anything. *)
Lemma main_scans config cli today blockers :
  default (js "plain") (orElseOpt (cli_format cli) (truthy (config_format config)))
    ∈ validFormats →
  ∃ rest,
    main' config cli today blockers
    = map (λ repoPath, ExecGit (resolve repoPath))
        (collectRepoPaths toLowerCase resolve cwd
           (default [] (config_repos config)) (cli_repos cli))
      ++ Ask :: Ask :: rest.
Proof.
  intros Hfmt. unfold main, mainBody.
  rewrite (bool_decide_eq_true_2 _ Hfmt). simpl negb. cbv iota.
  destruct (scan_loop (collectRepoPaths toLowerCase resolve cwd
                         (default [] (config_repos config)) (cli_repos cli)) [])
    as (Ht & repoSummaries & Hr).
  rewrite (run_bind_Ret _ _ _ Hr), Ht. simpl.
  destruct (formatOutput _ _ _ _ _ _) as [output|e]; simpl.
  - destruct (negb (noCopy cli) && default true (config_copy config)); simpl;
      rewrite <- ?app_assoc; simpl; eauto.
  - rewrite <- ?app_assoc. simpl. eauto.
Qed.
End RunFacts.

(** C6 (as amended).  For every format tag outside plain, slack and markdown
    the run is rejected before any repository is scanned: it reports the tag
    and exits with status 1, and invokes the tool for no path.  The renderer
    itself does not reject such a tag: it renders it as plain. *)
Theorem unknown_format_rejected
    (toUpperCase toLowerCase resolve basename : jsstring → jsstring) (cwd : jsstring)
    (execGitLog : jsstring → Exc jsstring)
    (config : Config) (cli : Cli) (today blockers format : jsstring) :
  format = default (js "plain")
             (orElseOpt (cli_format cli) (truthy (config_format config))) →
  format ∉ validFormats →
  main toUpperCase toLowerCase resolve basename cwd execGitLog config cli today blockers
  = [ConsoleError (js "Unknown format " ++ [34%N] ++ format ++ [34%N]
                   ++ js ". Choose: plain, slack, markdown");
     ProcessExit 1]
  ∧ (∀ absPath,
       ExecGit absPath
       ∉ main toUpperCase toLowerCase resolve basename cwd execGitLog
           config cli today blockers)
  ∧ (∀ repoSummaries today' blockers' team,
       formatOutput toLowerCase repoSummaries today' blockers' format team
       = formatOutput toLowerCase repoSummaries today' blockers' (js "plain") team).
Proof.
  intros Hformat Hunknown.
  assert (main toUpperCase toLowerCase resolve basename cwd execGitLog
            config cli today blockers
          = [ConsoleError (js "Unknown format " ++ [34%N] ++ format ++ [34%N]
                           ++ js ". Choose: plain, slack, markdown");
             ProcessExit 1]) as Hrun.
  { unfold main, mainBody. rewrite <- Hformat.
    by rewrite (bool_decide_eq_false_2 _ Hunknown). }
  split_and!; [done| |].
  - intros absPath. rewrite Hrun. by intros [|[|?%elem_of_nil]%elem_of_cons]%elem_of_cons.
  - intros repoSummaries today' blockers' team. unfold formatOutput.
    destruct (forOf _ _ repoSummaries) as [repoLines|e]; [|done].
    rewrite !bind_Ret.
    rewrite (bool_decide_eq_false_2 (format = js "slack")),
            (bool_decide_eq_false_2 (format = js "markdown")); [done|..];
      intros ->; apply Hunknown; by_evaluation.
Qed.

Lemma unknown_format_rejected_witness :
  main upperAscii lowerAscii id id (js "/home/dev/standup-cli") (λ _, Ret [])
    {| config_format := Some (js "slack"); config_team := None;
       config_copy := None; config_repos := None |}
    {| cli_format := Some (js "xml"); cli_team := None; noCopy := false;
       cli_repos := [js "."] |}
    (js "ship it") []
  = [ConsoleError (js "Unknown format " ++ [34%N] ++ js "xml" ++ [34%N]
                   ++ js ". Choose: plain, slack, markdown");
     ProcessExit 1].
Proof.
  refine (proj1 (unknown_format_rejected upperAscii lowerAscii id id _ _ _ _ _ _
                   (js "xml") _ _)).
  - reflexivity.
  - by_evaluation.
Defined.

(** C6 as stated has the renderer never fall back to a default format: for
    the tag [xml] it returns the plain rendering. *)
Lemma formatOutput_unknown_tag_as_plain :
  js "xml" ∉ validFormats
  ∧ formatOutput lowerAscii [] (js "ship it") [] (js "xml") None
    = Ret (join [LF] [js "Yesterday:"; js "No repositories scanned";
                      js "Today: ship it"; js "Blockers: None"])
  ∧ formatOutput lowerAscii [] (js "ship it") [] (js "xml") None
    = formatOutput lowerAscii [] (js "ship it") [] (js "plain") None.
Proof. split_and!; [by_evaluation|by vm_compute|by vm_compute]. Qed.

(** A tag that is absent or empty is no tag: the run goes on as plain. *)
Lemma empty_format_is_plain
    (toUpperCase toLowerCase resolve basename : jsstring → jsstring) (cwd : jsstring)
    (execGitLog : jsstring → Exc jsstring) (today blockers : jsstring) :
  ∃ rest,
    main toUpperCase toLowerCase resolve basename cwd execGitLog
      {| config_format := Some []; config_team := None;
         config_copy := None; config_repos := None |}
      {| cli_format := None; cli_team := None; noCopy := true; cli_repos := [] |}
      today blockers
    = ExecGit (resolve (resolve cwd)) :: Ask :: Ask :: rest.
Proof.
  destruct (main_scans toUpperCase toLowerCase resolve basename cwd execGitLog
              {| config_format := Some []; config_team := None;
                 config_copy := None; config_repos := None |}
              {| cli_format := None; cli_team := None; noCopy := true; cli_repos := [] |}
              today blockers) as [rest Hrun]; [by_evaluation|].
  exists rest. rewrite Hrun. unfold collectRepoPaths, collectRepo. simpl.
  by rewrite bool_decide_eq_false_2 by set_solver.
Qed.

(** ** The report with no repository *)


(** ** Further properties of the subject parser *)

Lemma trimStart_idem s : trimStart (trimStart s) = trimStart s.
Proof.
  induction s as [|c s IH]; [done|]. simpl.
  destruct (isWhiteSpace c) eqn:Hc; [done|]. simpl. by rewrite Hc.
Qed.

Lemma trimStart_app s t :
  trimStart (s ++ t) = match trimStart s with [] => trimStart t | _ => trimStart s ++ t end.
Proof.
  induction s as [|c s IH]; simpl; [done|].
  by destruct (isWhiteSpace c).
Qed.

Lemma forallb_rev {A : Type} (p : A → bool) l : forallb p (rev l) = forallb p l.
Proof.
  induction l as [|a l IH]; [done|]. simpl.
  rewrite forallb_app, IH. simpl. by destruct (forallb p l), (p a).
Qed.

Lemma trimEnd_whitespace s ws :
  forallb isWhiteSpace ws = true → trimEnd (s ++ ws) = trimEnd s.
Proof.
  intros Hws. unfold trimEnd. rewrite rev_app_distr.
  by rewrite trimStart_whitespace by by rewrite forallb_rev.
Qed.

(** What [trimEnd] takes away is white space. *)
Lemma trimEnd_split s :
  ∃ ws, s = trimEnd s ++ ws ∧ forallb isWhiteSpace ws = true.
Proof.
  unfold trimEnd.
  assert (∀ r, ∃ ws, r = ws ++ trimStart r ∧ forallb isWhiteSpace ws = true) as Hstart.
  { induction r as [|c r (ws & Hr & Hws)]; [by exists []|]. simpl.
    destruct (isWhiteSpace c) eqn:Hc; [|by exists []].
    exists (c :: ws). simpl. rewrite Hc, Hws. split; [by f_equal|done]. }
  destruct (Hstart (rev s)) as (ws & Hr & Hws).
  exists (rev ws). rewrite forallb_rev. split; [|done].
  by rewrite <- rev_app_distr, <- Hr, rev_involutive.
Qed.

(** [trim] takes white space from both ends and nothing else. *)
Lemma trim_surrounded ws1 s ws2 :
  forallb isWhiteSpace ws1 = true → forallb isWhiteSpace ws2 = true →
  trim (ws1 ++ s ++ ws2) = trim s.
Proof.
  intros H1 H2. unfold trim. rewrite trimStart_whitespace by done.
  rewrite trimStart_app. destruct (trimStart s) as [|c r] eqn:Hs.
  - assert (trimStart ws2 = []) as ->; [|done].
    clear -H2. induction ws2 as [|c ws IH]; [done|]. simpl in *.
    apply andb_true_iff in H2 as [-> H2]. auto.
  - by apply trimEnd_whitespace.
Qed.

Lemma trimStart_head c s : isWhiteSpace c = false → trimStart (c :: s) = c :: s.
Proof. intros Hc. simpl. by rewrite Hc. Qed.

Lemma trimStart_fixed s : trimStart (trimEnd (trimStart s)) = trimEnd (trimStart s).
Proof.
  destruct (trimEnd_split (trimStart s)) as (ws & Hsplit & _).
  destruct (trimEnd (trimStart s)) as [|c r] eqn:He; [done|].
  assert (isWhiteSpace c = false) as Hc.
  { assert (∀ t c' r', trimStart t = c' :: r' → isWhiteSpace c' = false) as Hhead.
    { induction t as [|a t IH]; intros c' r'; simpl; [done|].
      destruct (isWhiteSpace a) eqn:Ha; [apply IH|]. by intros [= <- _]. }
    apply (Hhead s c (r ++ ws)). by rewrite Hsplit. }
  by apply trimStart_head.
Qed.

Lemma trimEnd_idem s : trimEnd (trimEnd s) = trimEnd s.
Proof. unfold trimEnd. by rewrite rev_involutive, trimStart_idem. Qed.

Lemma trim_idem s : trim (trim s) = trim s.
Proof. unfold trim at 1. fold (trim s). unfold trim. by rewrite trimStart_fixed, trimEnd_idem. Qed.

(** A subject that reads as a conventional one parses into its parts. *)
Lemma parseCommitSubject_conventional (toUpperCase toLowerCase : jsstring → jsstring)
    subject ty scope desc :
  conventional (trim subject) ty scope desc →
  parseCommitSubject toUpperCase toLowerCase subject
  = {| parsed_type := toLowerCase ty;
       parsed_message :=
         scopePrefix scope ++ capitalize toUpperCase (stripTrailingPeriod (trim desc)) |}.
Proof.
  intros Hconv.
  destruct (subjectRegex_complete _ _ _ _ Hconv) as [m Hm].
  destruct (conventional_unique _ _ _ _ _ _ _ Hconv (subjectRegex_sound _ _ Hm))
    as (-> & -> & ->).
  unfold parseCommitSubject. rewrite Hm.
  destruct (group3 m) as [sc|]; simpl; [|done].
  f_equal. by rewrite <- app_assoc.
Qed.

(** X1.  White space around a subject does not change what it parses to. *)
Theorem parseCommitSubject_surrounded (toUpperCase toLowerCase : jsstring → jsstring)
    (before subject after : jsstring) :
  forallb isWhiteSpace before = true → forallb isWhiteSpace after = true →
  parseCommitSubject toUpperCase toLowerCase (before ++ subject ++ after)
  = parseCommitSubject toUpperCase toLowerCase subject.
Proof.
  intros Hb Ha. unfold parseCommitSubject. by rewrite trim_surrounded.
Qed.

Lemma parseCommitSubject_surrounded_witness :
  parseCommitSubject upperAscii lowerAscii
    ([TAB; SPACE] ++ js "docs: update readme." ++ [SPACE; CR])
  = parseCommitSubject upperAscii lowerAscii (js "docs: update readme.").
Proof.
  apply (parseCommitSubject_surrounded upperAscii lowerAscii [TAB; SPACE]
           (js "docs: update readme.") [SPACE; CR]); reflexivity.
Defined.

Lemma isAlpha_not_whitespace c : isAlpha c = true → isWhiteSpace c = false.
Proof.
  unfold isAlpha, inRange.
  rewrite orb_true_iff, !andb_true_iff, !N.leb_le. intros Hc.
  unfold isWhiteSpace, inRange.
  repeat (apply orb_false_intro);
    try (apply N.eqb_neq; lia).
  - apply andb_false_iff. right. apply N.leb_gt. lia.
  - apply andb_false_iff. left. apply N.leb_gt. lia.
Qed.

Lemma trimEnd_nonempty s : forallb isWhiteSpace s = false → trimEnd s ≠ [].
Proof.
  intros Hs He. destruct (trimEnd_split s) as (ws & Hsplit & Hws).
  rewrite He in Hsplit. simpl in Hsplit. congruence.
Qed.

Lemma trimEnd_app_fixed pre d :
  trimEnd d ≠ [] → trimEnd (pre ++ trimEnd d) = pre ++ trimEnd d.
Proof.
  unfold trimEnd. intros Hd. rewrite rev_app_distr, trimStart_app.
  rewrite rev_involutive, trimStart_idem.
  destruct (trimStart (rev d)) as [|c r] eqn:Hr; [done|].
  by rewrite rev_app_distr, rev_involutive.
Qed.

(** A text that starts with a letter and has a description that is not all
    white space is trimmed at its end only. *)
Lemma trim_subject c pre desc :
  isAlpha c = true → forallb isWhiteSpace desc = false →
  trim (c :: pre ++ desc) = c :: pre ++ trimEnd desc.
Proof.
  intros Hc Hd. unfold trim.
  rewrite trimStart_head by by apply isAlpha_not_whitespace.
  destruct (trimEnd_split desc) as (ws & Hsplit & Hws).
  rewrite Hsplit at 1.
  change (c :: pre ++ trimEnd desc ++ ws) with ((c :: pre) ++ trimEnd desc ++ ws).
  rewrite app_assoc, trimEnd_whitespace by done.
  by rewrite trimEnd_app_fixed by by apply trimEnd_nonempty.
Qed.

Lemma forallb_trimEnd p s : forallb p s = true → forallb p (trimEnd s) = true.
Proof.
  intros Hs. destruct (trimEnd_split s) as (ws & Hsplit & _).
  rewrite Hsplit, forallb_app in Hs. by apply andb_true_iff in Hs as [? _].
Qed.

(** X2.  A subject put together from a type, an optional scope, the colon,
    white space and a description parses back into the lowercased type and
    the cleaned description behind the scope; the breaking-change mark
    before the colon changes nothing. *)
Theorem breaking_mark_discarded (toUpperCase toLowerCase : jsstring → jsstring)
    (ty : jsstring) (scope : option jsstring) (ws desc : jsstring) :
  ty ≠ [] → forallb isAlpha ty = true →
  (∀ sc, scope = Some sc → sc ≠ [] ∧ forallb notRParen sc = true) →
  forallb isWhiteSpace ws = true →
  forallb isDot desc = true → forallb isWhiteSpace desc = false →
  parseCommitSubject toUpperCase toLowerCase
    (ty ++ scopeText scope ++ BANG :: COLON :: ws ++ desc)
  = parseCommitSubject toUpperCase toLowerCase
      (ty ++ scopeText scope ++ COLON :: ws ++ desc)
  ∧ parseCommitSubject toUpperCase toLowerCase
      (ty ++ scopeText scope ++ COLON :: ws ++ desc)
    = {| parsed_type := toLowerCase ty;
         parsed_message :=
           scopePrefix scope
           ++ capitalize toUpperCase (stripTrailingPeriod (trim desc)) |}.
Proof.
  intros Hty Halpha Hscope Hws Hdot Hdesc.
  assert (∀ bang, bang = [] ∨ bang = [BANG] →
    parseCommitSubject toUpperCase toLowerCase
      (ty ++ scopeText scope ++ bang ++ COLON :: ws ++ desc)
    = {| parsed_type := toLowerCase ty;
         parsed_message :=
           scopePrefix scope
           ++ capitalize toUpperCase (stripTrailingPeriod (trim desc)) |}) as Hparse.
  { intros bang Hbang.
    destruct ty as [|c ty]; [done|]. simpl in Halpha.
    apply andb_true_iff in Halpha as [Hc Halpha].
    assert (trim (trimEnd desc) = trim desc) as <-.
    { destruct (trimEnd_split desc) as (ws' & Hsplit & Hws').
      rewrite Hsplit at 2. rewrite <- (app_nil_l (trimEnd desc ++ ws')).
      by rewrite (trim_surrounded [] _ ws'). }
    apply parseCommitSubject_conventional.
    replace ((c :: ty) ++ scopeText scope ++ bang ++ COLON :: ws ++ desc)
      with (c :: (ty ++ scopeText scope ++ bang ++ COLON :: ws) ++ desc)
      by (simpl; by rewrite <- !app_assoc).
    rewrite trim_subject by done.
    exists bang, ws. split_and!; try done.
    - simpl. by rewrite <- !app_assoc.
    - simpl. by rewrite Hc, Halpha.
    - by apply trimEnd_nonempty.
    - by apply forallb_trimEnd. }
  split.
  - etrans; [apply (Hparse [BANG]); by right|].
    symmetry. apply (Hparse []). by left.
  - apply (Hparse []). by left.
Qed.

Lemma breaking_mark_discarded_witness :
  parseCommitSubject upperAscii lowerAscii (js "feat(api)!: drop v1 routes. ")
  = parseCommitSubject upperAscii lowerAscii (js "feat(api): drop v1 routes. ")
  ∧ parseCommitSubject upperAscii lowerAscii (js "feat(api): drop v1 routes. ")
    = {| parsed_type := js "feat"; parsed_message := js "api: Drop v1 routes" |}.
Proof.
  apply (breaking_mark_discarded upperAscii lowerAscii (js "feat") (Some (js "api"))
           [SPACE] (js "drop v1 routes. ")); try reflexivity.
  - done.
  - by intros sc [= <-].
Defined.

(** ** Further properties of the grouping *)

Lemma concat_buckets {A : Type} (f : jsstring → list A) (b : jsstring) (x : A) ts :
  NoDup ts → b ∈ ts →
  concat (map (λ t, (if decide (b = t) then [x] else []) ++ f t) ts)
  ≡ₚ x :: concat (map f ts).
Proof.
  induction ts as [|t ts IH]; intros Hnd Hb; [by apply elem_of_nil in Hb|].
  apply NoDup_cons in Hnd as [Ht Hnd]. simpl.
  destruct (decide (b = t)) as [->|Hne].
  - simpl. do 2 f_equiv.
    clear IH Hb Hnd. induction ts as [|t' ts IH]; [done|]. simpl.
    rewrite decide_False by (intros ->; apply Ht; left).
    simpl. f_equiv. apply IH. intros Hin. apply Ht. by right.
  - simpl. apply elem_of_cons in Hb as [?|Hb]; [done|].
    rewrite (IH Hnd Hb). by rewrite Permutation_middle.
Qed.

Lemma TYPE_ORDER_NoDup : NoDup TYPE_ORDER.
Proof. by_evaluation. Qed.

(** The buckets hold every record once. *)
Lemma buckets_permutation kept :
  concat (map (λ t, messagesIn t kept) TYPE_ORDER) ≡ₚ map message kept.
Proof.
  induction kept as [|cmt kept IH]; [done|].
  assert (map (λ t, messagesIn t (cmt :: kept)) TYPE_ORDER
          = map (λ t, (if decide (bucketOf (type cmt) = t) then [message cmt] else [])
                      ++ messagesIn t kept) TYPE_ORDER) as ->.
  { apply map_ext. intros t. unfold messagesIn. rewrite filter_cons. by case_decide. }
  rewrite concat_buckets by (apply TYPE_ORDER_NoDup || apply bucketOf_tag).
  simpl. by rewrite IH.
Qed.

Lemma itemsOf_app l1 l2 : itemsOf (l1 ++ l2) = itemsOf l1 ++ itemsOf l2.
Proof. apply List.filter_app. Qed.

Lemma itemsOf_items items :
  itemsOf (map (λ item, js "- " ++ item) items) = map (λ item, js "- " ++ item) items.
Proof.
  induction items as [|item items IH]; [done|].
  transitivity ((js "- " ++ item) :: itemsOf (map (λ item, js "- " ++ item) items));
    [reflexivity|by rewrite IH].
Qed.

Lemma itemsOf_groupBlock kept t :
  t ∈ TYPE_ORDER →
  itemsOf (groupBlock kept t) = map (λ item, js "- " ++ item) (messagesIn t kept).
Proof.
  intros Ht. unfold groupBlock.
  destruct (messagesIn t kept) as [|item items]; [done|].
  change (itemsOf (headerOf t :: ?l)) with
    (if startsWith (js "- ") (headerOf t) then headerOf t :: itemsOf l else itemsOf l).
  rewrite (itemsOf_items (item :: items)).
  repeat (apply elem_of_cons in Ht as [-> | Ht]; [by vm_compute|]).
  by apply elem_of_nil in Ht.
Qed.

Lemma itemsOf_groups kept ts :
  (∀ t, t ∈ ts → t ∈ TYPE_ORDER) →
  itemsOf (concat (map (groupBlock kept) ts))
  = map (λ item, js "- " ++ item) (concat (map (λ t, messagesIn t kept) ts)).
Proof.
  induction ts as [|t ts IH]; intros Hts; [done|].
  simpl. rewrite itemsOf_app, itemsOf_groupBlock by (apply Hts; left).
  rewrite IH by (intros t' Ht'; apply Hts; by right).
  by rewrite map_app.
Qed.

Lemma filter_length_split {A : Type} (p : A → bool) l :
  length l
  = length (List.filter (λ x, negb (p x)) l) + length (List.filter p l).
Proof.
  induction l as [|x l IH]; [done|]. simpl.
  destruct (p x); simpl; lia.
Qed.



Lemma dedupFirst_seen_again (toLowerCase : jsstring → jsstring) commits again :
  (∀ later, later ∈ again →
     ∃ first, first ∈ commits ∧ keyOf toLowerCase first = keyOf toLowerCase later) →
  dedupFirst toLowerCase (commits ++ again) = dedupFirst toLowerCase commits.
Proof.
  induction again as [|later rest IH]; intros Hseen; [by rewrite app_nil_r|].
  rewrite dedupFirst_drop_later by (apply Hseen; left).
  apply IH. intros c Hc. apply Hseen. by right.
Qed.

(** X4.  Records whose messages were all met already, in any letter case,
    add nothing: the result is that of the records before them.  Summarizing
    a sequence twice over is summarizing it once. *)
Theorem summarizeCommits_seen_again (toLowerCase : jsstring → jsstring)
    (commits again : list CommitRecord) :
  (∀ later, later ∈ again →
     ∃ first, first ∈ commits
              ∧ toLowerCase (message first) = toLowerCase (message later)) →
  summarizeCommits toLowerCase (commits ++ again)
  = summarizeCommits toLowerCase commits
  ∧ summarizeCommits toLowerCase (commits ++ commits)
    = summarizeCommits toLowerCase commits.
Proof.
  intros Hseen.
  assert (∀ more,
    (∀ later, later ∈ more →
       ∃ first, first ∈ commits
                ∧ keyOf toLowerCase first = keyOf toLowerCase later) →
    summarizeCommits toLowerCase (commits ++ more)
    = summarizeCommits toLowerCase commits) as Hagain.
  { intros more Hmore. rewrite !summarizeCommits_run.
    rewrite (dedupFirst_seen_again toLowerCase commits more Hmore).
    destruct commits as [|cmt rest]; [|done].
    destruct more as [|later more]; [done|].
    destruct (Hmore later) as (first & Hin & _); [left|].
    by apply elem_of_nil in Hin. }
  split; [by apply Hagain|].
  apply Hagain. intros later Hin. by exists later.
Qed.

Lemma summarizeCommits_seen_again_witness :
  summarizeCommits lowerAscii
    ([ {| type := js "feat"; message := js "Add login"; files_changed := 2 |} ]
     ++ [ {| type := js "constructor"; message := js "ADD LOGIN"; files_changed := 0 |} ])
  = summarizeCommits lowerAscii
      [ {| type := js "feat"; message := js "Add login"; files_changed := 2 |} ].
Proof.
  refine (proj1 (summarizeCommits_seen_again lowerAscii _ _ _)).
  intros later ->%list_elem_of_singleton.
  eexists. split; [left|reflexivity].
Defined.

(** X5.  [summarizeCommits] throws exactly when some record has the name of
    an inherited property as type and a message that no earlier record has,
    in any letter case; a record that repeats an earlier message is skipped
    before its type is looked at. *)
Theorem summarizeCommits_throws (toLowerCase : jsstring → jsstring)
    (commits : list CommitRecord) :
  (∃ e, summarizeCommits toLowerCase commits = Throw e)
  ↔ ∃ i cmt,
      commits !! i = Some cmt ∧ type cmt ∈ objectPrototypeKeys
      ∧ ∀ j earlier, (j < i)%nat → commits !! j = Some earlier →
          toLowerCase (message earlier) ≠ toLowerCase (message cmt).
Proof.
  rewrite summarizeCommits_run.
  assert (existsb inheritedType (dedupFirst toLowerCase commits) = true
          ↔ ∃ i cmt,
              commits !! i = Some cmt ∧ type cmt ∈ objectPrototypeKeys
              ∧ ∀ j earlier, (j < i)%nat → commits !! j = Some earlier →
                  toLowerCase (message earlier) ≠ toLowerCase (message cmt)) as Hex.
  { rewrite existsb_exists. split.
    - intros (cmt & Hin%list_elem_of_In & Hinh%bool_decide_eq_true).
      apply dedupFirst_first in Hin as (i & Hi & Hfirst). eauto.
    - intros (i & cmt & Hi & Hinh & Hfirst). exists cmt. split.
      + apply list_elem_of_In, dedupFirst_first. eauto.
      + by apply bool_decide_eq_true. }
  destruct commits as [|cmt rest] eqn:Hc.
  - split; [by intros [e ?]|]. by intros (i & c & Hi & _).
  - rewrite <- Hc in *. rewrite <- Hex.
    destruct (existsb _ _); split; try done; eauto. by intros [e ?].
Qed.

(** ** Further properties of the renderer *)

Section RenderFacts.
Variable toLowerCase : jsstring → jsstring.
Local Abbreviation repoBlock' := (repoBlock toLowerCase).
Local Abbreviation summaryLines' := (summaryLines toLowerCase).
Local Abbreviation summarizes repo :=
  (∃ lines, summarizeCommits toLowerCase (repo_commits repo) = Ret lines).

Lemma repoBlock_returns repoLines repo :
  summarizes repo →
  repoBlock' repoLines repo
  = Ret (repoLines ++ (repoHeader repo :: summaryLines' repo) ++ [[]]).
Proof.
  intros [lines Hl]. unfold repoBlock, summaryLines, repoHeader.
  by rewrite Hl, bind_Ret.
Qed.

(** The loop over the repositories, when grouping returns for each. *)
Lemma repo_loop_returns repoSummaries repoLines :
  (∀ repo, repo ∈ repoSummaries → summarizes repo) →
  forOf repoBlock' repoLines repoSummaries
  = Ret (repoLines
         ++ concat (map (λ repo, (repoHeader repo :: summaryLines' repo) ++ [[]])
                        repoSummaries)).
Proof.
  revert repoLines. induction repoSummaries as [|repo rest IH]; intros repoLines Hall.
  - simpl. by rewrite app_nil_r.
  - rewrite forOf_cons, repoBlock_returns by (apply Hall; left).
    rewrite bind_Ret, IH by (intros r Hr; apply Hall; by right).
    rewrite map_cons, concat_cons. f_equal. by rewrite <- !app_assoc.
Qed.

(** The loop over the repositories throws when grouping throws for one. *)
Lemma repo_loop_throws repoSummaries repoLines :
  (∃ e, forOf repoBlock' repoLines repoSummaries = Throw e)
  ↔ ∃ repo, repo ∈ repoSummaries
            ∧ ∃ e, summarizeCommits toLowerCase (repo_commits repo) = Throw e.
Proof.
  revert repoLines. induction repoSummaries as [|repo rest IH]; intros repoLines.
  - split; [by intros [e ?]|]. by intros (repo & ?%elem_of_nil & _).
  - rewrite forOf_cons.
    destruct (summarizeCommits toLowerCase (repo_commits repo)) as [lines|e] eqn:Hs.
    + rewrite (repoBlock_returns repoLines repo) by eauto.
      rewrite bind_Ret, IH. split.
      * intros (r & Hr & He). exists r. split; [by right|done].
      * intros (r & [->|Hr]%elem_of_cons & e & He); [congruence|eauto].
    + assert (repoBlock' repoLines repo = Throw e) as ->
        by (unfold repoBlock; by rewrite Hs).
      split; [|by eauto]. intros _. exists repo. split; [left|eauto].
Qed.

Lemma popBlank_snoc lines : popBlank (lines ++ [[]]) = lines.
Proof. unfold popBlank. rewrite rev_app_distr. simpl. apply rev_involutive. Qed.

Lemma separated_blank blocks :
  blocks ≠ [] → concat (map (λ block, block ++ [[]]) blocks) = separated blocks ++ [[]].
Proof.
  induction blocks as [|block rest IH]; [done|]. intros _.
  destruct rest as [|next rest]; [simpl; by rewrite app_nil_r|].
  rewrite map_cons, concat_cons, IH by done. simpl. by rewrite <- !app_assoc.
Qed.

(** The lines of the Yesterday section, before they are rendered. *)
Lemma repoLines_yesterday repoSummaries :
  (∀ repo, repo ∈ repoSummaries → summarizes repo) →
  (repoLines ← forOf repoBlock'
                 (match repoSummaries with
                  | [] => [js "No repositories scanned"]
                  | _ :: _ => []
                  end) repoSummaries;
   Ret (popBlank repoLines))
  = Ret (yesterdayLines toLowerCase repoSummaries).
Proof.
  intros Hall. rewrite repo_loop_returns by done. rewrite bind_Ret.
  destruct repoSummaries as [|repo rest]; [done|].
  unfold yesterdayLines. rewrite app_nil_l.
  rewrite <- (map_map (λ repo, repoHeader repo :: summaryLines' repo)
                (λ block, block ++ [[]])).
  by rewrite separated_blank, popBlank_snoc.
Qed.
End RenderFacts.

(** X6.  In each of the three formats the Yesterday section is the blocks of
    the repositories in their order, each a count line and the grouped lines
    of the repository, with one blank line between two blocks and none after
    the last: verbatim in plain and markdown, line by line through the Slack
    rules in slack. *)
Theorem formatOutput_blocks (toLowerCase : jsstring → jsstring)
    (repoSummaries : list RepoSummary) (today blockers : jsstring)
    (team : option jsstring) :
  (∀ repo, repo ∈ repoSummaries →
     ∃ lines, summarizeCommits toLowerCase (repo_commits repo) = Ret lines) →
  formatOutput toLowerCase repoSummaries today blockers (js "plain") team
  = Ret (join [LF]
           (match truthy team with Some t => [js "Team: " ++ t] | None => [] end
            ++ [js "Yesterday:"] ++ yesterdayLines toLowerCase repoSummaries
            ++ [js "Today: " ++ today;
                js "Blockers: " ++ orElse blockers (js "None")]))
  ∧ formatOutput toLowerCase repoSummaries today blockers (js "markdown") team
    = Ret (join [LF]
             ([js "### Daily Standup"; []]
              ++ match truthy team with Some t => [js "**Team:**"; t; []] | None => [] end
              ++ [js "**Yesterday:**"] ++ yesterdayLines toLowerCase repoSummaries
              ++ [[]; js "**Today:**"; today; []; js "**Blockers:**";
                  orElse blockers (js "None")]))
  ∧ formatOutput toLowerCase repoSummaries today blockers (js "slack") team
    = Ret (join [LF]
             (match truthy team with Some t => [js "*Team:* " ++ t] | None => [] end
              ++ [js "*Yesterday:*"]
              ++ map slackLine (yesterdayLines toLowerCase repoSummaries)
              ++ [js "*Today:* " ++ today;
                  js "*Blockers:* " ++ orElse blockers (js "None")])).
Proof.
  intros Hall.
  pose proof (repoLines_yesterday toLowerCase repoSummaries Hall) as Hy.
  unfold formatOutput.
  destruct (forOf _ _ repoSummaries) as [repoLines|e]; [|done].
  rewrite bind_Ret in Hy. injection Hy as Hy. rewrite !bind_Ret, Hy.
  split_and!.
  - rewrite (bool_decide_eq_false_2 (js "plain" = js "slack")) by done.
    rewrite (bool_decide_eq_false_2 (js "plain" = js "markdown")) by done.
    by rewrite <- !app_assoc.
  - rewrite (bool_decide_eq_false_2 (js "markdown" = js "slack")) by done.
    rewrite (bool_decide_eq_true_2 (js "markdown" = js "markdown")) by done.
    destruct (truthy team); by rewrite <- !app_assoc.
  - rewrite (bool_decide_eq_true_2 (js "slack" = js "slack")) by done.
    by rewrite <- !app_assoc.
Qed.

Lemma formatOutput_blocks_witness :
  formatOutput lowerAscii
    [ {| name := js "standup-cli"; path := js "/home/dev/standup-cli";
         repo_commits :=
           [ {| type := js "feat"; message := js "Add repo grouping";
                files_changed := 9 |} ];
         commit_count := 1; repo_files_changed := 9 |};
      {| name := js "service-api"; path := js "/home/dev/service-api";
         repo_commits := []; commit_count := 0; repo_files_changed := 0 |} ]
    (js "Finish release checks") [] (js "plain") (Some (js "Platform"))
  = Ret (join [LF]
           [js "Team: Platform"; js "Yesterday:";
            js "standup-cli (1 commits, 9 files changed):";
            js "Features:"; js "- Add repo grouping"; [];
            js "service-api (0 commits, 0 files changed):";
            js "No commits in the last 24 hours";
            js "Today: Finish release checks"; js "Blockers: None"]).
Proof.
  refine (proj1 (formatOutput_blocks lowerAscii _ _ _ _ _)).
  intros repo [->|[->|Hin%elem_of_nil]%elem_of_cons]%elem_of_cons;
    [by eexists|by eexists|done].
Defined.

(** X7.  In every format the renderer throws exactly when grouping throws for
    the commits of one of the repositories; it returns a report in every
    other case. *)
Theorem formatOutput_throws (toLowerCase : jsstring → jsstring)
    (repoSummaries : list RepoSummary) (today blockers format : jsstring)
    (team : option jsstring) :
  ((∃ e, formatOutput toLowerCase repoSummaries today blockers format team = Throw e)
   ↔ ∃ repo, repo ∈ repoSummaries
             ∧ ∃ e, summarizeCommits toLowerCase (repo_commits repo) = Throw e)
  ∧ ((∃ output,
        formatOutput toLowerCase repoSummaries today blockers format team = Ret output)
     ↔ ∀ repo, repo ∈ repoSummaries →
               ∃ lines, summarizeCommits toLowerCase (repo_commits repo) = Ret lines).
Proof.
  assert ((∃ e, formatOutput toLowerCase repoSummaries today blockers format team
                = Throw e)
          ↔ ∃ repo, repo ∈ repoSummaries
                    ∧ ∃ e, summarizeCommits toLowerCase (repo_commits repo) = Throw e)
    as Hthrow.
  { rewrite <- (repo_loop_throws toLowerCase repoSummaries
                  (match repoSummaries with
                   | [] => [js "No repositories scanned"]
                   | _ :: _ => []
                   end)).
    unfold formatOutput.
    destruct (forOf _ _ repoSummaries) as [repoLines|e]; [|by split; eauto].
    rewrite bind_Ret. split; [|by intros [e ?]].
    intros [e He]. by repeat case_bool_decide. }
  split; [done|]. split.
  - intros [output Ho] repo Hin.
    destruct (summarizeCommits toLowerCase (repo_commits repo)) as [lines|e] eqn:Hs;
      [by eauto|].
    destruct (proj2 Hthrow) as [e' He']; [by eauto|]. congruence.
  - intros Hall.
    destruct (formatOutput toLowerCase repoSummaries today blockers format team)
      as [output|e] eqn:Hf; [by eauto|].
    destruct (proj1 Hthrow) as (repo & Hin & e' & He'); [by eauto|].
    destruct (Hall repo Hin) as [lines Hl]. congruence.
Qed.

(** ** Further properties of the run *)

Section MainFacts.
Variable toUpperCase toLowerCase resolve basename : jsstring → jsstring.
Variable cwd : jsstring.
Variable execGitLog : jsstring → Exc jsstring.
Local Abbreviation scanRepo'' :=
  (scanRepo toUpperCase toLowerCase resolve basename execGitLog).
Local Abbreviation summariesOf' :=
  (summariesOf toUpperCase toLowerCase resolve basename execGitLog).
Local Abbreviation main'' :=
  (main toUpperCase toLowerCase resolve basename cwd execGitLog).

(** The scanning loop returns the summaries of the paths that are not
    skipped, in the order of the paths. *)
Lemma scan_loop_result repoPaths repoSummaries :
  result (forOfRun scanRepo'' repoSummaries repoPaths)
  = Ret (repoSummaries ++ summariesOf' repoPaths).
Proof.
  revert repoSummaries.
  induction repoPaths as [|repoPath rest IH]; intros repoSummaries.
  - simpl. by rewrite app_nil_r.
  - destruct (getRepoSummary_trace toUpperCase toLowerCase resolve basename
                execGitLog repoPath) as (_ & summary & Hr).
    assert (result (scanRepo'' repoSummaries repoPath)
            = Ret (repoSummaries ++ option_list summary)) as Hs.
    { unfold scanRepo. rewrite (run_bind_Ret _ _ _ Hr).
      destruct summary; simpl; [done|by rewrite app_nil_r]. }
    assert (summariesOf' (repoPath :: rest) = option_list summary ++ summariesOf' rest)
      as ->.
    { unfold summariesOf.
      set (f := λ p, match result (getRepoSummary toUpperCase toLowerCase resolve
                                     basename execGitLog p) with
                     | Ret summary => summary
                     | Throw _ => None
                     end).
      change (omap f (repoPath :: rest))
        with (match f repoPath with Some y => y :: omap f rest | None => omap f rest end).
      unfold f at 1. rewrite Hr. by destruct summary. }
    simpl forOfRun. rewrite (run_bind_Ret _ _ _ Hs). simpl result.
    by rewrite IH, <- app_assoc.
Qed.

(** A run with a recognized tag, from its first effect to its last. *)
Lemma main_run config cli today blockers :
  let format := default (js "plain")
                  (orElseOpt (cli_format cli) (truthy (config_format config))) in
  let team := orElseOpt (cli_team cli) (truthy (config_team config)) in
  let copyEnabled := negb (noCopy cli) && default true (config_copy config) in
  let repoPaths := collectRepoPaths toLowerCase resolve cwd
                     (default [] (config_repos config)) (cli_repos cli) in
  format ∈ validFormats →
  main'' config cli today blockers
  = map (λ repoPath, ExecGit (resolve repoPath)) repoPaths
    ++ [Ask; Ask]
    ++ match formatOutput toLowerCase (summariesOf' repoPaths)
               (orElse (trim today) (js "(not specified)"))
               (orElse (trim blockers) (js "None")) format team with
       | Ret output =>
           PrintStandup output :: if copyEnabled then [CopyToClipboard output] else []
       | Throw e => [Uncaught e; ProcessExit 1]
       end.
Proof.
  intros format team copyEnabled repoPaths Hfmt. unfold main, mainBody.
  fold format team copyEnabled repoPaths.
  rewrite (bool_decide_eq_true_2 _ Hfmt). simpl negb. cbv iota.
  destruct (scan_loop toUpperCase toLowerCase resolve basename execGitLog repoPaths [])
    as (Ht & _).
  pose proof (scan_loop_result repoPaths []) as Hr. rewrite app_nil_l in Hr.
  rewrite (run_bind_Ret _ _ _ Hr), Ht. simpl.
  destruct (formatOutput _ _ _ _ _ _) as [output|e]; simpl.
  - destruct copyEnabled; simpl; by rewrite <- ?app_assoc.
  - by rewrite <- ?app_assoc.
Qed.
End MainFacts.

(** X8.  A run with a recognized tag invokes the tool once for every
    collected path, in their order and whatever the outcomes, then asks its
    two questions; when the report renders it prints it and, when copying is
    on, copies the same text; when rendering throws it reports the exception
    and exits with status 1, with nothing printed or copied.  The report is
    made of the summaries of the paths that were not skipped, in the order
    of the paths. *)
Theorem main_run_trace
    (toUpperCase toLowerCase resolve basename : jsstring → jsstring) (cwd : jsstring)
    (execGitLog : jsstring → Exc jsstring)
    (config : Config) (cli : Cli) (today blockers : jsstring) :
  let format := default (js "plain")
                  (orElseOpt (cli_format cli) (truthy (config_format config))) in
  let team := orElseOpt (cli_team cli) (truthy (config_team config)) in
  let copyEnabled := negb (noCopy cli) && default true (config_copy config) in
  let repoPaths := collectRepoPaths toLowerCase resolve cwd
                     (default [] (config_repos config)) (cli_repos cli) in
  format ∈ validFormats →
  main toUpperCase toLowerCase resolve basename cwd execGitLog config cli today blockers
  = map (λ repoPath, ExecGit (resolve repoPath)) repoPaths
    ++ [Ask; Ask]
    ++ match formatOutput toLowerCase
               (summariesOf toUpperCase toLowerCase resolve basename execGitLog
                  repoPaths)
               (orElse (trim today) (js "(not specified)"))
               (orElse (trim blockers) (js "None")) format team with
       | Ret output =>
           PrintStandup output :: if copyEnabled then [CopyToClipboard output] else []
       | Throw e => [Uncaught e; ProcessExit 1]
       end.
Proof. apply main_run. Qed.

(** X9.  A run that is told not to copy, on the command line or by the
    configuration, never copies anything to the clipboard, whatever the
    repositories hold and the user answers. *)
Theorem main_never_copies
    (toUpperCase toLowerCase resolve basename : jsstring → jsstring) (cwd : jsstring)
    (execGitLog : jsstring → Exc jsstring)
    (config : Config) (cli : Cli) (today blockers output : jsstring) :
  noCopy cli = true ∨ config_copy config = Some false →
  CopyToClipboard output
  ∉ main toUpperCase toLowerCase resolve basename cwd execGitLog
      config cli today blockers.
Proof.
  intros Hoff.
  assert (negb (noCopy cli) && default true (config_copy config) = false) as Hcopy.
  { destruct Hoff as [-> | ->]; [done|]. simpl. apply andb_false_r. }
  destruct (decide (default (js "plain")
                      (orElseOpt (cli_format cli) (truthy (config_format config)))
                    ∈ validFormats)) as [Hfmt|Hfmt].
  - rewrite (main_run _ _ _ _ _ _ _ _ _ _ Hfmt), Hcopy.
    intros Hin%list_elem_of_In. rewrite !in_app_iff in Hin.
    destruct Hin as [Hin | [Hin | Hin]].
    + by apply in_map_iff in Hin as (p & Hp & _).
    + simpl in Hin. intuition discriminate.
    + destruct (formatOutput _ _ _ _ _ _); simpl in Hin; intuition discriminate.
  - unfold main, mainBody. rewrite (bool_decide_eq_false_2 _ Hfmt).
    intros Hin%list_elem_of_In. simpl in Hin. intuition discriminate.
Qed.

Lemma main_run_trace_witness :
  let output :=
    join [LF] [js "*Yesterday:*"; js "*app (0 commits, 0 files changed):*";
               js "- No commits in the last 24 hours";
               js "*Today:* (not specified)"; js "*Blockers:* None"] in
  main upperAscii lowerAscii id (λ _, js "app") (js "/home/dev/app")
    (λ _, Ret [SPACE; LF])
    {| config_format := Some (js "slack"); config_team := None;
       config_copy := None; config_repos := None |}
    {| cli_format := None; cli_team := None; noCopy := false; cli_repos := [] |}
    [SPACE] []
  = [ExecGit (js "/home/dev/app"); Ask; Ask; PrintStandup output;
     CopyToClipboard output].
Proof.
  refine (main_run_trace upperAscii lowerAscii id (λ _, js "app") (js "/home/dev/app")
            (λ _, Ret [SPACE; LF])
            {| config_format := Some (js "slack"); config_team := None;
               config_copy := None; config_repos := None |}
            {| cli_format := None; cli_team := None; noCopy := false; cli_repos := [] |}
            [SPACE] [] _).
  by_evaluation.
Defined.

Lemma main_never_copies_witness :
  CopyToClipboard (js "Yesterday:")
  ∉ main upperAscii lowerAscii id id (js "/home/dev/app") (λ _, Throw ChildProcessError)
      {| config_format := None; config_team := None;
         config_copy := Some true; config_repos := None |}
      {| cli_format := None; cli_team := None; noCopy := true; cli_repos := [] |}
      (js "ship it") [].
Proof.
  apply main_never_copies. left. reflexivity.
Defined.

(** ** The collected paths *)

Section FirstPathsFacts.
Variable toLowerCase : jsstring → jsstring.
Local Abbreviation firstPaths' := (firstPaths toLowerCase).

Lemma firstPaths_sublist seen paths : firstPaths' seen paths `sublist_of` paths.
Proof.
  revert seen. induction paths as [|abs rest IH]; intros seen; simpl; [done|].
  case_bool_decide; [by apply sublist_cons|by apply sublist_skip].
Qed.

Lemma firstPaths_fresh seen paths abs :
  abs ∈ firstPaths' seen paths → toLowerCase abs ∉ seen.
Proof.
  revert seen. induction paths as [|p rest IH]; intros seen; simpl.
  - by intros ?%elem_of_nil.
  - case_bool_decide as Hs; [by apply IH|].
    intros [->|Hin]%elem_of_cons; [done|].
    apply IH in Hin. set_solver.
Qed.

Lemma firstPaths_NoDup seen paths : NoDup (map toLowerCase (firstPaths' seen paths)).
Proof.
  revert seen. induction paths as [|p rest IH]; intros seen; simpl; [constructor|].
  case_bool_decide as Hs; [by apply IH|].
  simpl. apply NoDup_cons. split; [|by apply IH].
  intros Hin%list_elem_of_In%in_map_iff. destruct Hin as (q & Hq & Hin).
  apply list_elem_of_In, firstPaths_fresh in Hin. rewrite Hq in Hin. set_solver.
Qed.

Lemma firstPaths_covers seen paths abs :
  abs ∈ paths →
  toLowerCase abs ∈ seen
  ∨ ∃ kept, kept ∈ firstPaths' seen paths ∧ toLowerCase kept = toLowerCase abs.
Proof.
  revert seen. induction paths as [|p rest IH]; intros seen; simpl.
  - by intros ?%elem_of_nil.
  - intros [->|Hin]%elem_of_cons.
    + case_bool_decide as Hs; [by left|]. right. exists p. split; [left|done].
    + case_bool_decide as Hs.
      * by apply IH.
      * destruct (IH ({[toLowerCase p]} ∪ seen) Hin) as [Hseen|(kept & Hk & Heq)].
        -- apply elem_of_union in Hseen as [Heq%elem_of_singleton|Hseen]; [|by left].
           right. exists p. split; [left|done].
        -- right. exists kept. split; [by right|done].
Qed.
End FirstPathsFacts.

Section CollectFacts.
Variable toLowerCase resolve : jsstring → jsstring.
Local Abbreviation collectRepo' := (collectRepo toLowerCase resolve).
Local Abbreviation firstPaths'' := (firstPaths toLowerCase).

(** The loop of [collectRepoPaths]. *)
Lemma collect_loop source seen unique :
  (foldl collectRepo' (seen, unique) source).2
  = unique ++ firstPaths'' seen (map resolve source).
Proof.
  revert seen unique. induction source as [|repo rest IH]; intros seen unique.
  - simpl. by rewrite app_nil_r.
  - simpl foldl. unfold collectRepo at 2. simpl.
    case_bool_decide; rewrite IH; [done|]. by rewrite <- app_assoc.
Qed.

End CollectFacts.



(** ** Further properties of the decoder *)

(** The stat lines of a text: not blank, three fields, and no boundary. *)
Lemma statLines_split lines :
  length (List.filter (λ line, isStatLine line && negb (isBoundary line)) lines)
  = statLines lines
    + length (List.filter (λ line, isStatLine line && negb (isBoundary line))
                (fromFirstBoundary lines)).
Proof.
  unfold statLines. induction lines as [|line rest IH]; [done|]. simpl.
  destruct (isBoundary line) eqn:Hb; simpl;
    rewrite ?Hb, ?andb_false_r, ?andb_true_r; simpl; [done|].
  destruct (isStatLine line); simpl; lia.
Qed.

Lemma decoded_files_changed (toUpperCase toLowerCase : jsstring → jsstring) lines :
  sum_list (map files_changed (decoded toUpperCase toLowerCase lines))
  = length (List.filter (λ line, isStatLine line && negb (isBoundary line))
              (fromFirstBoundary lines)).
Proof.
  induction lines as [|line rest IH]; [done|]. simpl.
  destruct (isBoundary line) eqn:Hb; [|done].
  simpl. rewrite Hb, andb_false_r, IH. symmetry. apply statLines_split.
Qed.

(** X12.  The files changed of the decoded records add up to the number of
    stat lines (not blank, at least three tab-separated fields, no boundary
    line) from the first boundary line on: every such line is counted once,
    and what stands before the first boundary line is not counted. *)
Theorem parseGitLogWithNumstat_total (toUpperCase toLowerCase : jsstring → jsstring)
    (raw : jsstring) :
  ∃ records,
    parseGitLogWithNumstat toUpperCase toLowerCase raw = Ret records
    ∧ sum_list (map files_changed records)
      = length (List.filter (λ line, isStatLine line && negb (isBoundary line))
                  (fromFirstBoundary (splitLines raw))).
Proof.
  eexists. split; [apply parseGitLogWithNumstat_decoded|].
  apply decoded_files_changed.
Qed.

Lemma startsWith_snoc m l c :
  last m ≠ Some c → startsWith m (l ++ [c]) = startsWith m l.
Proof.
  revert l. induction m as [|a m IH]; intros l Hlast; [done|].
  destruct l as [|b l]; simpl.
  - destruct m as [|a' m]; [|by rewrite andb_false_r].
    simpl in Hlast. destruct (N.eqb_spec a c) as [->|]; [done|done].
  - destruct m as [|a' m]; [by destruct l|].
    rewrite IH; [done|]. by rewrite last_cons_cons in Hlast.
Qed.

(** One more character at the end of a text changes its last piece only. *)
Lemma split_snoc sep l c :
  c ≠ sep →
  Forall2 (λ piece piece', piece' = piece ∨ piece' = piece ++ [c])
    (split sep l) (split sep (l ++ [c])).
Proof.
  intros Hc. induction l as [|a l IH]; simpl.
  - destruct (N.eqb_spec c sep); [done|]. constructor; [by right|constructor].
  - destruct (N.eqb_spec a sep); [constructor; [by left|done]|].
    destruct (split_nonempty sep l) as (p & ps & Hl).
    destruct (split_nonempty sep (l ++ [c])) as (p' & ps' & Hl').
    rewrite Hl, Hl' in *.
    apply Forall2_cons_1 in IH as [Hp Hps]. constructor; [|done].
    destruct Hp as [->| ->]; [by left|by right].
Qed.

Lemma isWhiteSpace_CR : forallb isWhiteSpace [CR] = true.
Proof. done. Qed.

(** A carriage return at the end of a line changes nothing the decoder
    reads of the line. *)
Lemma line_snoc_CR (toUpperCase toLowerCase : jsstring → jsstring) line :
  isBoundary (line ++ [CR]) = isBoundary line
  ∧ isStatLine (line ++ [CR]) = isStatLine line
  ∧ ∀ n, recordOf toUpperCase toLowerCase (line ++ [CR]) n
         = recordOf toUpperCase toLowerCase line n.
Proof.
  split_and!.
  - by apply startsWith_snoc.
  - unfold isStatLine.
    rewrite <- (app_nil_l (line ++ [CR])), (trim_surrounded [] line [CR]) by done.
    assert (CR ≠ TAB) as Hne by done.
    by rewrite (Forall2_length _ _ _ (split_snoc TAB line CR Hne)).
  - intros n. unfold recordOf, subjectField.
    assert (CR ≠ US) as Hne by done.
    pose proof (split_snoc US line CR Hne) as Hsplit.
    destruct (split US line !! 1%nat) as [piece|] eqn:Hp.
    + destruct (Forall2_lookup_l _ _ _ _ _ Hsplit Hp) as (piece' & -> & Hrel).
      simpl. destruct Hrel as [->| ->]; [done|].
      rewrite <- (app_nil_l (piece ++ [CR])).
      by rewrite (trim_surrounded [] piece [CR]).
    + destruct (split US (line ++ [CR]) !! 1%nat) as [piece'|] eqn:Hp'; [|done].
      destruct (Forall2_lookup_r _ _ _ _ _ Hsplit Hp') as (piece & Hp'' & _).
      congruence.
Qed.

Lemma line_crEq (toUpperCase toLowerCase : jsstring → jsstring) line line' :
  crEq line line' →
  isBoundary line' = isBoundary line
  ∧ isStatLine line' = isStatLine line
  ∧ ∀ n, recordOf toUpperCase toLowerCase line' n
         = recordOf toUpperCase toLowerCase line n.
Proof.
  intros [->|[->| ->]]; [done|apply line_snoc_CR|].
  destruct (line_snoc_CR toUpperCase toLowerCase line') as (Hb & Hs & Hr).
  split_and!; [done|done|]. intros n. by rewrite Hr.
Qed.

Lemma statLines_crEq lines lines' :
  Forall2 crEq lines lines' → statLines lines' = statLines lines.
Proof.
  unfold statLines. induction 1 as [|line line' rest rest' Hl _ IH]; [done|].
  destruct (line_crEq id id line line' Hl) as (Hb & Hs & _).
  simpl. rewrite Hb. destruct (isBoundary line); [done|].
  simpl. rewrite Hs. destruct (isStatLine line); simpl; by rewrite IH.
Qed.

(** Lines equal up to their carriage returns decode alike. *)
Lemma decoded_crEq (toUpperCase toLowerCase : jsstring → jsstring) lines lines' :
  Forall2 crEq lines lines' →
  decoded toUpperCase toLowerCase lines' = decoded toUpperCase toLowerCase lines.
Proof.
  induction 1 as [|line line' rest rest' Hl Hrest IH]; [done|].
  destruct (line_crEq toUpperCase toLowerCase line line' Hl) as (Hb & _ & Hr).
  simpl. rewrite Hb, IH, Hr, (statLines_crEq rest rest' Hrest). done.
Qed.

Lemma chompCR_snoc line : chompCR (line ++ [CR]) = line.
Proof. unfold chompCR. rewrite rev_app_distr. simpl. apply rev_involutive. Qed.

Lemma chompCR_cons c line : line ≠ [] → chompCR (c :: line) = c :: chompCR line.
Proof.
  intros Hne. unfold chompCR. simpl.
  destruct (rev line) as [|d r] eqn:Hr.
  - apply (f_equal (@rev N)) in Hr. rewrite rev_involutive in Hr. done.
  - simpl. destruct (d =? CR)%N; [|done]. by rewrite rev_app_distr.
Qed.

Lemma chompCR_crEq line : crEq line (chompCR line).
Proof.
  unfold crEq, chompCR. destruct (rev line) as [|c r] eqn:Hr; [by left|].
  destruct (N.eqb_spec c CR) as [->|]; [|by left].
  right. right. apply (f_equal (@rev N)) in Hr. rewrite rev_involutive in Hr.
  by rewrite Hr.
Qed.

(** A text with no line feed is one line. *)
Lemma splitLines_last line :
  forallb (λ c, negb (c =? LF)%N) line = true → splitLines line = [line].
Proof.
  induction line as [|c line IH]; [done|]. simpl.
  intros [Hc Hline]%andb_true_iff. apply negb_true_iff in Hc.
  rewrite Hc, IH by done.
  destruct (c =? CR)%N; [|done].
  destruct line as [|c' line']; [done|]. simpl in Hline.
  apply andb_true_iff in Hline as [Hc'%negb_true_iff _]. by rewrite Hc'.
Qed.

(** A character that is not part of a line end goes to the first line of
    what follows it. *)
Lemma splitLines_keep c c' r :
  (c =? LF)%N = false → (c' =? LF)%N = false →
  splitLines (c :: c' :: r)
  = match splitLines (c' :: r) with
    | p :: ps => (c :: p) :: ps
    | [] => [[c]]
    end.
Proof.
  intros Hc Hc'.
  change (splitLines (c :: c' :: r))
    with (let keep := match splitLines (c' :: r) with
                      | p :: ps => (c :: p) :: ps
                      | [] => [[c]]
                      end in
          if (c =? LF)%N then [] :: splitLines (c' :: r)
          else if (c =? CR)%N then
            if (c' =? LF)%N then [] :: splitLines r else keep
          else keep).
  cbv zeta. rewrite Hc, Hc'. by destruct (c =? CR)%N.
Qed.

(** A line feed ends the line before it, and takes the carriage return that
    ends that line. *)
Lemma splitLines_line line rest :
  forallb (λ c, negb (c =? LF)%N) line = true →
  splitLines (line ++ LF :: rest) = chompCR line :: splitLines rest.
Proof.
  induction line as [|c line IH]; [done|].
  intros [Hc Hline]%andb_true_iff. apply negb_true_iff in Hc.
  destruct line as [|c' line'].
  - simpl. rewrite Hc. unfold chompCR. simpl. by destruct (c =? CR)%N.
  - rewrite chompCR_cons by done.
    pose proof Hline as Hline'. simpl in Hline'.
    apply andb_true_iff in Hline' as [Hc'%negb_true_iff _].
    change ((c :: c' :: line') ++ LF :: rest)
      with (c :: c' :: (line' ++ LF :: rest)).
    rewrite splitLines_keep by done.
    change (c' :: line' ++ LF :: rest) with ((c' :: line') ++ LF :: rest).
    by rewrite IH.
Qed.

Lemma join_cons_cons sep l l' ls :
  join sep (l :: l' :: ls) = l ++ sep ++ join sep (l' :: ls).
Proof. done. Qed.

Lemma splitLines_join_LF lines :
  lines ≠ [] → lfFree lines = true →
  Forall2 crEq lines (splitLines (join [LF] lines)).
Proof.
  induction lines as [|line rest IH]; [done|]. intros _ Hfree.
  unfold lfFree in Hfree. simpl in Hfree.
  apply andb_true_iff in Hfree as [Hline Hrest].
  destruct rest as [|line' rest].
  - simpl. rewrite splitLines_last by done. constructor; [by left|constructor].
  - rewrite join_cons_cons. simpl app. rewrite splitLines_line by done.
    constructor; [apply chompCR_crEq|]. by apply IH.
Qed.

Lemma splitLines_join_CRLF lines :
  lines ≠ [] → lfFree lines = true →
  splitLines (join [CR; LF] lines) = lines.
Proof.
  induction lines as [|line rest IH]; [done|]. intros _ Hfree.
  unfold lfFree in Hfree. simpl in Hfree.
  apply andb_true_iff in Hfree as [Hline Hrest].
  destruct rest as [|line' rest].
  - simpl. by apply splitLines_last.
  - rewrite join_cons_cons.
    change (line ++ [CR; LF] ++ join [CR; LF] (line' :: rest))
      with (line ++ [CR] ++ LF :: join [CR; LF] (line' :: rest)).
    rewrite app_assoc, splitLines_line by by rewrite forallb_app, Hline.
    rewrite chompCR_snoc. f_equal. by apply IH.
Qed.

(** The decoder on lines put together with line feeds, or with carriage
    returns and line feeds. *)
Lemma decode_join (toUpperCase toLowerCase : jsstring → jsstring) lines :
  lfFree lines = true →
  parseGitLogWithNumstat toUpperCase toLowerCase (join [LF] lines)
  = Ret (decoded toUpperCase toLowerCase lines)
  ∧ parseGitLogWithNumstat toUpperCase toLowerCase (join [CR; LF] lines)
    = Ret (decoded toUpperCase toLowerCase lines).
Proof.
  intros Hfree. rewrite !parseGitLogWithNumstat_decoded.
  destruct lines as [|line rest] eqn:Hl; [done|]. rewrite <- Hl in *.
  assert (lines ≠ []) as Hne by by rewrite Hl.
  rewrite (splitLines_join_CRLF lines Hne Hfree).
  by rewrite (decoded_crEq _ _ _ _ (splitLines_join_LF lines Hne Hfree)).
Qed.

Lemma decoded_app (toUpperCase toLowerCase : jsstring → jsstring) lines1 line lines2 :
  isBoundary line = true →
  decoded toUpperCase toLowerCase (lines1 ++ line :: lines2)
  = decoded toUpperCase toLowerCase lines1
    ++ decoded toUpperCase toLowerCase (line :: lines2).
Proof.
  intros Hb. induction lines1 as [|l rest IH]; [done|].
  simpl app. simpl decoded at 1 2. rewrite IH.
  assert (statLines (rest ++ line :: lines2) = statLines rest) as ->.
  { unfold statLines. f_equal. f_equal. clear IH.
    induction rest as [|l' rest IH]; simpl; [by rewrite Hb|].
    destruct (isBoundary l'); [done|]. by rewrite IH. }
  by destruct (isBoundary l).
Qed.

(** X13.  Line endings do not matter: lines put together with carriage
    return and line feed decode to the same records as the lines put
    together with line feeds, the records of the lines themselves. *)
Theorem parseGitLogWithNumstat_line_endings
    (toUpperCase toLowerCase : jsstring → jsstring) (lines : list jsstring) :
  lfFree lines = true →
  parseGitLogWithNumstat toUpperCase toLowerCase (join [CR; LF] lines)
  = parseGitLogWithNumstat toUpperCase toLowerCase (join [LF] lines)
  ∧ parseGitLogWithNumstat toUpperCase toLowerCase (join [LF] lines)
    = Ret (decoded toUpperCase toLowerCase lines).
Proof.
  intros Hfree.
  destruct (decode_join toUpperCase toLowerCase lines Hfree) as [-> ->]. done.
Qed.

Lemma parseGitLogWithNumstat_line_endings_witness :
  let lines :=
    [ COMMIT_MARK ++ js "fix: close socket"; [];
      js "2" ++ [TAB] ++ js "1" ++ [TAB] ++ js "net.js" ] in
  parseGitLogWithNumstat upperAscii lowerAscii (join [CR; LF] lines)
  = parseGitLogWithNumstat upperAscii lowerAscii (join [LF] lines).
Proof.
  intros lines.
  exact (proj1 (parseGitLogWithNumstat_line_endings upperAscii lowerAscii lines
                  eq_refl)).
Defined.

(** X14.  Decoding is commit by commit: the records of a log followed, on a
    new line, by a log that starts with a boundary line are the records of
    the first followed by the records of the second. *)
Theorem parseGitLogWithNumstat_app
    (toUpperCase toLowerCase : jsstring → jsstring)
    (lines1 lines2 : list jsstring) (line : jsstring) :
  lfFree lines1 = true → lfFree (line :: lines2) = true →
  isBoundary line = true →
  ∃ records1 records2,
    parseGitLogWithNumstat toUpperCase toLowerCase (join [LF] lines1) = Ret records1
    ∧ parseGitLogWithNumstat toUpperCase toLowerCase (join [LF] (line :: lines2))
      = Ret records2
    ∧ parseGitLogWithNumstat toUpperCase toLowerCase
        (join [LF] (lines1 ++ line :: lines2))
      = Ret (records1 ++ records2).
Proof.
  intros H1 H2 Hb.
  assert (lfFree (lines1 ++ line :: lines2) = true) as H12.
  { unfold lfFree in *. by rewrite forallb_app, H1, H2. }
  exists (decoded toUpperCase toLowerCase lines1),
         (decoded toUpperCase toLowerCase (line :: lines2)).
  rewrite (proj1 (decode_join _ _ _ H1)), (proj1 (decode_join _ _ _ H2)),
          (proj1 (decode_join _ _ _ H12)).
  by rewrite decoded_app.
Qed.

Lemma parseGitLogWithNumstat_app_witness :
  ∃ records1 records2,
    parseGitLogWithNumstat upperAscii lowerAscii
      (join [LF] [COMMIT_MARK ++ js "feat: add login";
                  js "5" ++ [TAB] ++ js "0" ++ [TAB] ++ js "login.js"])
    = Ret records1
    ∧ parseGitLogWithNumstat upperAscii lowerAscii
        (join [LF] [COMMIT_MARK ++ js "docs: update readme"])
      = Ret records2
    ∧ parseGitLogWithNumstat upperAscii lowerAscii
        (join [LF] ([COMMIT_MARK ++ js "feat: add login";
                     js "5" ++ [TAB] ++ js "0" ++ [TAB] ++ js "login.js"]
                    ++ [COMMIT_MARK ++ js "docs: update readme"]))
      = Ret (records1 ++ records2).
Proof.
  apply (parseGitLogWithNumstat_app upperAscii lowerAscii
           [COMMIT_MARK ++ js "feat: add login";
            js "5" ++ [TAB] ++ js "0" ++ [TAB] ++ js "login.js"]
           [] (COMMIT_MARK ++ js "docs: update readme")); reflexivity.
Defined.

(** ** The command line *)

Section ArgsFacts.
Variable toLowerCase : jsstring → jsstring.
Local Abbreviation parseArgsFrom' := (parseArgsFrom toLowerCase).
Local Abbreviation fromArgs' := (fromArgs toLowerCase).

Lemma parseArgsFrom_repo parsed repo rest :
  repo ≠ [] →
  parseArgsFrom' parsed (js "--repo" :: repo :: rest)
  = parseArgsFrom'
      {| cli_format := cli_format parsed; cli_team := cli_team parsed;
         noCopy := noCopy parsed; cli_repos := cli_repos parsed ++ [repo] |} rest.
Proof. destruct repo; [done|]. intros _. reflexivity. Qed.

Lemma parseArgsFrom_repos parsed repos :
  Forall (λ repo, repo ≠ []) repos →
  parseArgsFrom' parsed (concat (map (λ repo, [js "--repo"; repo]) repos))
  = Parsed {| cli_format := cli_format parsed; cli_team := cli_team parsed;
              noCopy := noCopy parsed; cli_repos := cli_repos parsed ++ repos |}.
Proof.
  intros Hall. revert parsed.
  induction Hall as [|repo repos Hrepo _ IH]; intros parsed.
  - simpl. rewrite app_nil_r. by destruct parsed.
  - simpl concat. rewrite parseArgsFrom_repo by done. rewrite IH. simpl.
    by rewrite <- app_assoc.
Qed.

(** The loop adds to the parsed arguments only what the arguments hold. *)
Lemma parseArgsFrom_origin n argv parsed all :
  length argv ≤ n → (∀ arg, arg ∈ argv → arg ∈ all) → fromArgs' all parsed →
  match parseArgsFrom' parsed argv with
  | Parsed cli => fromArgs' all cli
  | HelpExit => js "--help" ∈ all ∨ js "-h" ∈ all
  end.
Proof.
  revert argv parsed.
  induction n as [|n IH]; intros argv parsed Hlen Hsub Hparsed.
  { destruct argv; [done|simpl in Hlen; lia]. }
  destruct argv as [|arg rest]; [done|]. simpl in Hlen.
  assert (arg ∈ all) as Harg by (apply Hsub; left).
  assert (∀ x, x ∈ rest → x ∈ all) as Hrest by (intros x Hx; apply Hsub; by right).
  destruct Hparsed as (Hcopy & Hformat & Hteam & Hrepos).
  assert (match (if bool_decide (arg = js "--no-copy")
                 then parseArgsFrom'
                        {| cli_format := cli_format parsed; cli_team := cli_team parsed;
                           noCopy := true; cli_repos := cli_repos parsed |} rest
                 else if bool_decide (arg = js "--help" ∨ arg = js "-h") then HelpExit
                 else parseArgsFrom' parsed rest) with
          | Parsed cli => fromArgs' all cli
          | HelpExit => js "--help" ∈ all ∨ js "-h" ∈ all
          end) as Hplain.
  { case_bool_decide as Hnc.
    - apply IH; [lia|done|]. split_and!; simpl; [by rewrite <- Hnc|done..].
    - case_bool_decide as Hh.
      + destruct Hh as [<-|<-]; [by left|by right].
      + apply IH; [lia|done|]. by split_and!. }
  destruct rest as [|value rest']; [exact Hplain|].
  destruct value as [|c v]; [exact Hplain|].
  assert ((c :: v) ∈ all) as Hvalue by (apply Hrest; left).
  assert (∀ x, x ∈ rest' → x ∈ all) as Hrest'
    by (intros x Hx; apply Hrest; by right).
  simpl in Hlen.
  assert (parseArgsFrom' parsed (arg :: (c :: v) :: rest')
    = (if bool_decide (arg = js "--format" ∨ arg = js "-f") then
            parseArgsFrom'
              {| cli_format := Some (toLowerCase (c :: v)); cli_team := cli_team parsed;
                 noCopy := noCopy parsed; cli_repos := cli_repos parsed |} rest'
          else if bool_decide (arg = js "--team" ∨ arg = js "-t") then
            parseArgsFrom'
              {| cli_format := cli_format parsed; cli_team := Some (c :: v);
                 noCopy := noCopy parsed; cli_repos := cli_repos parsed |} rest'
          else if bool_decide (arg = js "--repo") then
            parseArgsFrom'
              {| cli_format := cli_format parsed; cli_team := cli_team parsed;
                 noCopy := noCopy parsed;
                 cli_repos := cli_repos parsed ++ [c :: v] |} rest'
          else if bool_decide (arg = js "--no-copy") then
            parseArgsFrom'
              {| cli_format := cli_format parsed; cli_team := cli_team parsed;
                 noCopy := true; cli_repos := cli_repos parsed |} ((c :: v) :: rest')
          else if bool_decide (arg = js "--help" ∨ arg = js "-h") then HelpExit
          else parseArgsFrom' parsed ((c :: v) :: rest'))) as ->.
  { cbn [parseArgsFrom]. by repeat case_bool_decide. }
  match type of Hplain with
  | match ?plain with _ => _ end => set (outcome := plain) in *; clearbody outcome
  end.
  case_bool_decide as Hf.
  { apply IH; [lia|done|]. split_and!; simpl; [done| |done|done].
    intros format [= <-]. by exists (c :: v). }
  case_bool_decide as Ht.
  { apply IH; [lia|done|]. split_and!; simpl; [done|done| |done].
    by intros team [= <-]. }
  case_bool_decide as Hr; [|exact Hplain].
  apply IH; [lia|done|]. split_and!; simpl; [done|done|done|].
  intros repo [Hin| ->%list_elem_of_singleton]%elem_of_app; [by apply Hrepos|done].
Qed.
End ArgsFacts.

(** X15.  Every path given with [--repo] is taken, in the order given and
    as written, whatever it looks like: a value is never read as a flag. *)
Theorem parseArgs_repos (toLowerCase : jsstring → jsstring) (repos : list jsstring) :
  Forall (λ repo, repo ≠ []) repos →
  parseArgs toLowerCase (concat (map (λ repo, [js "--repo"; repo]) repos))
  = Parsed {| cli_format := None; cli_team := None; noCopy := false;
              cli_repos := repos |}.
Proof. intros Hall. unfold parseArgs. by rewrite parseArgsFrom_repos. Qed.

Lemma parseArgs_repos_witness :
  parseArgs lowerAscii [js "--repo"; js "."; js "--repo"; js "--help"]
  = Parsed {| cli_format := None; cli_team := None; noCopy := false;
              cli_repos := [js "."; js "--help"] |}.
Proof.
  apply (parseArgs_repos lowerAscii [js "."; js "--help"]).
  by repeat constructor.
Defined.

(** X16.  [parseArgs] invents nothing: it ends in the help text only when
    [--help] or [-h] is among the arguments; copying is switched off only
    when [--no-copy] is among them; the format is the lowercased form of an
    argument that is not empty, and the team and every path are arguments
    that are not empty. *)
Theorem parseArgs_origin (toLowerCase : jsstring → jsstring) (argv : list jsstring) :
  match parseArgs toLowerCase argv with
  | Parsed cli =>
      (noCopy cli = true → js "--no-copy" ∈ argv)
      ∧ (∀ format, cli_format cli = Some format →
           ∃ value, value ∈ argv ∧ value ≠ [] ∧ format = toLowerCase value)
      ∧ (∀ team, cli_team cli = Some team → team ∈ argv ∧ team ≠ [])
      ∧ (∀ repo, repo ∈ cli_repos cli → repo ∈ argv ∧ repo ≠ [])
  | HelpExit => js "--help" ∈ argv ∨ js "-h" ∈ argv
  end.
Proof.
  apply (parseArgsFrom_origin toLowerCase (length argv) argv _ argv); [done..|].
  split_and!; simpl; try done. by intros repo ?%elem_of_nil.
Qed.
